(** * Metrika agent: fingerprint validation, watcher lifecycle, stream registry

    A shallow embedding of the Go packages [fingerprint], [global], [watch],
    [algorand] and [collector] of the agent, together with the slice of the
    Go standard library they rely on ([crypto/sha256], [fmt], [unicode/utf8],
    [sync.Once], channels and [select]) and the calls of the Prometheus
    client that the collector makes.  Each Go package is a module of the
    same name; functions keep their Go names.  Go values with identity
    (channels, [*sync.Once]) live in an explicit heap, and a ghost trace
    records the observable effects. *)

From Stdlib Require Import ZArith List String Ascii Lia DecimalString.
From Stdlib.Strings Require Import Byte.
From stdpp Require Import gmap list strings.
Import ListNotations.

(** ** crypto/sha256 (FIPS 180-4), on 32-bit words carried by [Z] *)

Module sha256.
Local Open Scope Z_scope.

(** [sha256.Size] and [sha256.BlockSize], both in bytes. *)
Definition Size : nat := 32.
Definition BlockSize : nat := 64.

(** uint32 arithmetic with its wrap-around. *)
Definition wrap (x : Z) : Z := Z.land x (Z.ones 32).
Definition add32 (x y : Z) : Z := wrap (x + y).
Definition rotr (n x : Z) : Z :=
  Z.lor (Z.shiftr x n) (wrap (Z.shiftl x (32 - n))).

Definition Ch (x y z : Z) : Z :=
  Z.lxor (Z.land x y) (Z.land (Z.lxor x (Z.ones 32)) z).
Definition Maj (x y z : Z) : Z :=
  Z.lxor (Z.lxor (Z.land x y) (Z.land x z)) (Z.land y z).
Definition bsig0 (x : Z) : Z := Z.lxor (Z.lxor (rotr 2 x) (rotr 13 x)) (rotr 22 x).
Definition bsig1 (x : Z) : Z := Z.lxor (Z.lxor (rotr 6 x) (rotr 11 x)) (rotr 25 x).
Definition ssig0 (x : Z) : Z := Z.lxor (Z.lxor (rotr 7 x) (rotr 18 x)) (Z.shiftr x 3).
Definition ssig1 (x : Z) : Z := Z.lxor (Z.lxor (rotr 17 x) (rotr 19 x)) (Z.shiftr x 10).

(** The round constants are the first 32 fractional bits of the cube roots
    of the first 64 primes, the initial state those of the square roots of
    the first 8; both tables are computed here rather than typed in. *)
Definition primes : list Z :=
  [2; 3; 5; 7; 11; 13; 17; 19; 23; 29; 31; 37; 41; 43; 47; 53;
   59; 61; 67; 71; 73; 79; 83; 89; 97; 101; 103; 107; 109; 113; 127; 131;
   137; 139; 149; 151; 157; 163; 167; 173; 179; 181; 191; 193; 197; 199;
   211; 223; 227; 229; 233; 239; 241; 251; 257; 263; 269; 271; 277; 281;
   283; 293; 307; 311].

Fixpoint icbrt_from (bit : nat) (n r : Z) : Z :=
  match bit with
  | O => r
  | S b =>
      let c := r + 2 ^ Z.of_nat b in
      icbrt_from b n (if c * c * c <=? n then c else r)
  end.
Definition icbrt (n : Z) : Z := icbrt_from 40 n 0.

Definition _K : list Z :=
  Eval vm_compute in map (fun p => wrap (icbrt (p * 2 ^ 96))) primes.

Definition regs : Type := (Z * Z * Z * Z * Z * Z * Z * Z)%type.

Definition frac_sqrt (p : Z) : Z := wrap (Z.sqrt (p * 2 ^ 64)).
Definition init : regs :=
  Eval vm_compute in
    (frac_sqrt 2, frac_sqrt 3, frac_sqrt 5, frac_sqrt 7,
     frac_sqrt 11, frac_sqrt 13, frac_sqrt 17, frac_sqrt 19).

(** Padding: 0x80, zeros up to 56 mod 64, then the bit length on 8 bytes. *)
Definition be_bytes (n : nat) (x : Z) : list Z :=
  map (fun i => Z.land (Z.shiftr x (8 * Z.of_nat i)) 255) (rev (seq 0 n)).

Definition pad (msg : list Z) : list Z :=
  let len := Z.of_nat (length msg) in
  msg ++ [128] ++ repeat 0 (Z.to_nat ((55 - len) mod 64))
      ++ be_bytes 8 ((8 * len) mod 2 ^ 64).

Fixpoint words (bs : list Z) : list Z :=
  match bs with
  | b0 :: b1 :: b2 :: b3 :: rest =>
      (b0 * 2 ^ 24 + b1 * 2 ^ 16 + b2 * 2 ^ 8 + b3) :: words rest
  | _ => []
  end.

Fixpoint chunks (fuel : nat) (ws : list Z) : list (list Z) :=
  match fuel, ws with
  | S f, _ :: _ => firstn 16 ws :: chunks f (skipn 16 ws)
  | _, _ => []
  end.

(** Message schedule; [recent] holds the words computed so far, latest first. *)
Fixpoint extend (n : nat) (recent : list Z) : list Z :=
  match n with
  | O => recent
  | S n' =>
      let w := add32 (add32 (add32 (ssig1 (nth 1 recent 0)) (nth 6 recent 0))
                            (ssig0 (nth 14 recent 0))) (nth 15 recent 0) in
      extend n' (w :: recent)
  end.
Definition schedule (blk : list Z) : list Z := rev (extend 48 (rev blk)).

Definition round (s : regs) (kw : Z * Z) : regs :=
  let '(a, b, c, d, e, f, g, h) := s in
  let t1 := add32 (add32 (add32 (add32 h (bsig1 e)) (Ch e f g)) (fst kw)) (snd kw) in
  let t2 := add32 (bsig0 a) (Maj a b c) in
  (add32 t1 t2, a, b, c, add32 d t1, e, f, g).

Definition block (s : regs) (blk : list Z) : regs :=
  let '(a, b, c, d, e, f, g, h) := s in
  let '(a', b', c', d', e', f', g', h') :=
    fold_left round (combine _K (schedule blk)) s in
  (add32 a a', add32 b b', add32 c c', add32 d d',
   add32 e e', add32 f f', add32 g g', add32 h h').

Definition Z_of_byte (b : byte) : Z := Z.of_N (Byte.to_N b).
Definition byte_of_Z (z : Z) : byte :=
  match Byte.of_N (Z.to_N (z mod 256)) with Some b => b | None => x00 end.

Definition word_bytes (w : Z) : list byte := map byte_of_Z (be_bytes 4 w).

Definition Sum256 (data : list byte) : list byte :=
  let ws := words (pad (map Z_of_byte data)) in
  let '(a, b, c, d, e, f, g, h) := fold_left block (chunks (length ws) ws) init in
  word_bytes a ++ word_bytes b ++ word_bytes c ++ word_bytes d ++
  word_bytes e ++ word_bytes f ++ word_bytes g ++ word_bytes h.

(** The streaming [hash.Hash] view used by the agent: [New], [Write], [Sum].
    [Write] "never returns an error" (package [hash]) and consumes all of
    its argument. *)
Record digest : Type := { written : list byte }.
Definition New : digest := {| written := [] |}.
Definition Write {E : Type} (d : digest) (p : list byte) : digest * nat * option E :=
  ({| written := written d ++ p |}, length p, None).
Definition Sum (d : digest) (b : list byte) : list byte :=
  b ++ Sum256 (written d).
End sha256.

(** ** fmt *)

Module fmt.
(** The digit table of [fmt] for the verb [%x]. *)
Definition ldigits : string := "0123456789abcdef".
Definition digit (n : N) : ascii :=
  match String.get (N.to_nat n) ldigits with Some c => c | None => "0"%char end.

(** [Sprintf("%x", b)] for [b []byte]: two lower-case digits per byte. *)
Fixpoint Sprintf_x (bs : list byte) : string :=
  match bs with
  | [] => EmptyString
  | b :: rest =>
      String (digit (N.shiftr (Byte.to_N b) 4))
        (String (digit (N.land (Byte.to_N b) 15)) (Sprintf_x rest))
  end.

(** [%d] for a non-negative int. *)
Definition Sprintf_d (n : nat) : string := NilEmpty.string_of_uint (Nat.to_uint n).

(** Reading [%x] text back: the value of a digit, and the bytes of a text
    of digit pairs. *)
Definition digit_value (c : ascii) : N :=
  let n := N_of_ascii c in
  if (n <? 58)%N then (n - 48)%N else (n - 87)%N.

Fixpoint unhex (s : string) : list byte :=
  match s with
  | String hi (String lo rest) =>
      match Byte.of_N (16 * digit_value hi + digit_value lo) with
      | Some b => b :: unhex rest
      | None => []
      end
  | _ => []
  end.
End fmt.

(** ** The Go runtime: how a call ends, channels, [sync.Once], [select] *)

(** A call returns, parks its goroutine on a channel operation that cannot
    proceed (the state reached so far is kept), or panics. *)
Inductive Outcome (A : Type) : Type :=
| Returned (a : A)
| Blocked (a : A)
| Panicked (msg : string).
Arguments Returned {A} a.
Arguments Blocked {A} a.
Arguments Panicked {A} msg.

(** [n] calls made one after the other; a call that does not return ends
    the sequence. *)
Fixpoint calls {S : Type} (n : nat) (f : S -> Outcome S) (s : S) : Outcome S :=
  match n with
  | O => Returned s
  | S n' =>
      match f s with
      | Returned s' => calls n' f s'
      | other => other
      end
  end.

Module chan.
(** A channel as the runtime keeps it: the buffered values, the capacity
    given to [make], the number of goroutines parked in a receive, and
    whether [close] was called. *)
Record t (A : Type) : Type :=
  { buf : list A; cap : nat; recvq : nat; closed : bool }.
Arguments buf {A} _.
Arguments cap {A} _.
Arguments recvq {A} _.
Arguments closed {A} _.

Definition make {A : Type} (n : nat) : t A :=
  {| buf := []; cap := n; recvq := 0; closed := false |}.

(** [c <- v]: panics on a closed channel, hands [v] to a parked receiver
    when there is one, buffers it when there is space, blocks otherwise. *)
Definition send {A : Type} (c : t A) (v : A) : Outcome (t A) :=
  if closed c then Panicked "send on closed channel"
  else
    match recvq c with
    | S k => Returned {| buf := buf c; cap := cap c; recvq := k; closed := false |}
    | O =>
        if (length (buf c) <? cap c)%nat
        then Returned {| buf := buf c ++ [v]; cap := cap c; recvq := 0; closed := false |}
        else Blocked c
    end.

(** [<-c] when it can proceed: the oldest buffered value, or the zero
    value [z] of a closed and drained channel. *)
Definition recv {A : Type} (z : A) (c : t A) : option (A * t A) :=
  match buf c with
  | v :: rest =>
      Some (v, {| buf := rest; cap := cap c; recvq := recvq c; closed := closed c |})
  | [] => if closed c then Some (z, c) else None
  end.

Definition can_recv {A : Type} (c : t A) : bool :=
  match buf c with _ :: _ => true | [] => closed c end.

(** How many sends an open channel takes before one blocks. *)
Definition room {A : Type} (c : t A) : nat :=
  if closed c then 0 else recvq c + (cap c - length (buf c)).
End chan.

(** Values carried by [chan interface{}]. *)
Inductive Msg : Type :=
| MInt (z : Z)
| MBool (b : bool)
| MData (n : nat).

(** The ghost trace: effects in the order they happened. *)
Inductive Event : Type :=
| EvRun (fn : string)              (* a method body was entered *)
| EvCall (f : nat)                 (* the func() value [f] was called *)
| EvSend (c : nat) (m : Msg)       (* a send on an interface{} channel completed *)
| EvSignal (c : nat) (b : bool)    (* a send on a bool channel completed *)
| EvGo (fn : string)               (* a goroutine was spawned *)
| EvLog (msg : string).            (* a log line was handed to the logger *)

(** The heap shared by the goroutines: [*sync.Once] cells (their done
    flag), [chan bool] and [chan interface{}] objects, and the trace. *)
Record Env : Type :=
  { onces : gmap nat bool;
    sigs : gmap nat (chan.t bool);
    chans : gmap nat (chan.t Msg);
    trace : list Event }.

Definition emit_event (ev : Event) (e : Env) : Env :=
  {| onces := onces e; sigs := sigs e; chans := chans e; trace := trace e ++ [ev] |}.

Definition set_once (o : nat) (d : bool) (e : Env) : Env :=
  {| onces := <[o := d]> (onces e); sigs := sigs e; chans := chans e; trace := trace e |}.

Definition set_sig (k : nat) (c : chan.t bool) (e : Env) : Env :=
  {| onces := onces e; sigs := <[k := c]> (sigs e); chans := chans e; trace := trace e |}.

Definition set_chan (k : nat) (c : chan.t Msg) (e : Env) : Env :=
  {| onces := onces e; sigs := sigs e; chans := <[k := c]> (chans e); trace := trace e |}.

(** Calling a [func()] value: its effect is outside the watcher and is
    recorded as an event. *)
Definition call (f : nat) (e : Env) : Env := emit_event (EvCall f) e.

(** [ch <- m] on the heap; a nil channel blocks forever. *)
Definition send_chan (k : nat) (m : Msg) (e : Env) : Outcome Env :=
  match chans e !! k with
  | None => Blocked e
  | Some c =>
      match chan.send c m with
      | Returned c' => Returned (emit_event (EvSend k m) (set_chan k c' e))
      | Blocked _ => Blocked e
      | Panicked msg => Panicked msg
      end
  end.

Definition send_sig (k : nat) (b : bool) (e : Env) : Outcome Env :=
  match sigs e !! k with
  | None => Blocked e
  | Some c =>
      match chan.send c b with
      | Returned c' => Returned (emit_event (EvSignal k b) (set_sig k c' e))
      | Blocked _ => Blocked e
      | Panicked msg => Panicked msg
      end
  end.

Definition recv_sig (k : nat) (e : Env) : option (bool * Env) :=
  match sigs e !! k with
  | None => None
  | Some c =>
      match chan.recv false c with
      | Some (b, c') => Some (b, set_sig k c' e)
      | None => None
      end
  end.

Definition sig_ready (k : nat) (e : Env) : bool :=
  match sigs e !! k with Some c => chan.can_recv c | None => false end.

(** Sends the heap channel [k] takes before one blocks. *)
Definition room (e : Env) (k : nat) : nat :=
  match chans e !! k with Some c => chan.room c | None => 0 end.


(** [o.Do(f)]: [f] runs only while the done flag is unset, and the flag is
    set when [f] is over.  The cell is locked for the whole call, so
    concurrent calls take effect one after the other. *)
Definition Once_Do {A : Type} (o : nat) (f : Env -> A * Env) (skip : A) (e : Env)
  : Outcome (A * Env) :=
  match onces e !! o with
  | None => Panicked "invalid memory address or nil pointer dereference"
  | Some true => Returned (skip, e)
  | Some false => let (a, e') := f e in Returned (a, set_once o true e')
  end.

(** [select]: among the cases that can proceed one is chosen by the
    scheduler ([pick] stands for its pseudo-random draw); with none the
    goroutine sleeps. *)
Definition select {C : Type} (ready : list C) (pick : nat) : option C :=
  nth_error ready (pick mod length ready).

(** ** package fingerprint *)

Module fingerprint.
Local Open Scope string_scope.

(** Go's [error] values met in this package: plain errors (built by
    [fmt.Errorf], or handed back by a reader or writer) and
    [*ValidationError], which wraps one. *)
Inductive error : Type :=
| errorString (msg : string)
| ValidationError (err : error).

(** [func (v *ValidationError) Error() string]: [%v] of the wrapped error. *)
Fixpoint Error (e : error) : string :=
  match e with
  | errorString msg => msg
  | ValidationError err => Error err
  end.

Definition validationError (err : error) : error := ValidationError err.

(** [io.Writer]: what a call [Write(p)] answers. *)
Record Writer : Type := { write : list byte -> nat * option error }.

(** [io.Reader], seen through [ioutil.ReadAll]: the bytes read and the
    error met, if any. *)
Record Reader : Type := { contents : list byte; failure : option error }.
Definition ReadAll (r : Reader) : list byte * option error :=
  (contents r, failure r).

Record Fingerprint : Type := { out : option Writer; hash : string }.

Definition zerofp : Fingerprint := {| out := None; hash := "" |}.

Definition Hash (f : Fingerprint) : string := hash f.

Definition validate (newfp : Fingerprint) (prev : Reader) : option error :=
  let (prevHashBytes, err) := ReadAll prev in
  match err with
  | Some e => Some e
  | None =>
      let prevHash := string_of_list_byte prevHashBytes in
      if (1 <? String.length prevHash)%nat
         && negb (String.eqb prevHash (hash newfp))
      then
        let err := errorString ("hash mismatch detected, expected "
                                ++ prevHash ++ ", got " ++ hash newfp) in
        Some (validationError err)
      else None
  end.

Definition New (out : Writer) (val : list byte) : Fingerprint * option error :=
  let h := sha256.New in
  let '(h, n, err) := sha256.Write h val in
  match err with
  | Some e => (zerofp, Some e)
  | None =>
      if negb (n =? length val)%nat then
        (zerofp,
         Some (errorString ("unexpected number of bytes written: "
                            ++ fmt.Sprintf_d n ++ "/"
                            ++ fmt.Sprintf_d (length val))))
      else
        let hstr := fmt.Sprintf_x (sha256.Sum h []) in
        if (String.length hstr <? sha256.BlockSize)%nat then
          (zerofp,
           Some (errorString ("unexpected hash length, expected "
                              ++ fmt.Sprintf_d sha256.BlockSize ++ ", got "
                              ++ fmt.Sprintf_d (String.length hstr))))
        else ({| out := Some out; hash := hstr |}, None)
  end.

Definition NewWithValidation (val : list byte) (out : Writer) (prev : Reader)
  : Fingerprint * option error :=
  let (newfp, err) := New out val in
  match err with
  | Some e => (zerofp, Some e)
  | None =>
      match validate newfp prev with
      | Some e => (zerofp, Some e)
      | None => (newfp, None)
      end
  end.

(** [func (f Fingerprint) Write() error]; calling [Write] on the nil
    writer of the zero fingerprint panics. *)
Definition Write (f : Fingerprint) : Outcome (option error) :=
  match out f with
  | None => Panicked "invalid memory address or nil pointer dereference"
  | Some w =>
      let (n, err) := write w (list_byte_of_string (hash f)) in
      match err with
      | Some e => Returned (Some e)
      | None =>
          if negb (n =? String.length (hash f))%nat then
            Returned (Some (errorString
              ("unexpected number of bytes written: "
               ++ fmt.Sprintf_d n ++ "/" ++ fmt.Sprintf_d (String.length (hash f)))))
          else Returned None
      end
  end.

(** A store read without I/O error. *)
Definition store (p : list byte) : Reader := {| contents := p; failure := None |}.

(** Lower-case hexadecimal text. *)
Definition is_lower_hex (c : ascii) : bool :=
  let n := nat_of_ascii c in
  ((48 <=? n) && (n <=? 57) || (97 <=? n) && (n <=? 102))%nat.

Fixpoint all_chars (P : ascii -> bool) (s : string) : bool :=
  match s with
  | EmptyString => true
  | String c rest => P c && all_chars P rest
  end.
End fingerprint.

(** ** package watch *)

Module watch.
Local Open Scope string_scope.

Record Watch : Type :=
  { Running : bool;
    StartFn : nat;
    StopFn : nat;
    StopKey : nat;            (* chan bool, in [sigs] *)
    startOnce : nat;          (* *sync.Once, in [onces] *)
    listeners : list nat }.   (* []chan<- interface{}, in [chans] *)

Definition set_Running (b : bool) (w : Watch) : Watch :=
  {| Running := b; StartFn := StartFn w; StopFn := StopFn w;
     StopKey := StopKey w; startOnce := startOnce w; listeners := listeners w |}.


(** The closure [func() {}] that [NewWatch] installs twice. *)
Definition noop : nat := 0.

(** [NewWatch]: [make(chan bool, 1)] and [&sync.Once{}] are fresh cells. *)
Definition NewWatch (e : Env) : Watch * Env :=
  let k := fresh (dom (sigs e)) in
  let o := fresh (dom (onces e)) in
  ({| Running := false; StartFn := noop; StopFn := noop;
      StopKey := k; startOnce := o; listeners := [] |},
   set_once o false (set_sig k (chan.make 1) e)).

Definition Watch_StartUnsafe (w : Watch) (e : Env) : Watch * Env :=
  (set_Running true w, emit_event (EvRun "Watch.StartUnsafe") e).

Definition Watch_Stop (w : Watch) (e : Env) : Outcome (Watch * Env) :=
  if negb (Running w) then Returned (w, e)
  else
    let w := set_Running false w in
    let e := call (StopFn w) e in
    match send_sig (StopKey w) true e with
    | Returned e' => Returned (w, e')
    | Blocked e' => Blocked (w, e')
    | Panicked msg => Panicked msg
    end.

Definition Watch_once (w : Watch) : nat := startOnce w.

Definition Watch_Subscribe (w : Watch) (handler : nat) : Watch :=
  {| Running := Running w; StartFn := StartFn w; StopFn := StopFn w;
     StopKey := StopKey w; startOnce := startOnce w;
     listeners := listeners w ++ [handler] |}.

(** The [range] loop of [Emit] over the listeners still to serve. *)
Fixpoint emit_to (handlers : list nat) (message : Msg) (e : Env) : Outcome Env :=
  match handlers with
  | [] => Returned e
  | handler :: rest =>
      match send_chan handler message e with
      | Returned e' => emit_to rest message e'
      | other => other
      end
  end.

Definition Watch_Emit (w : Watch) (message : Msg) (e : Env) : Outcome Env :=
  emit_to (listeners w) message e.

(** The interface [Watcher]. *)
Class Watcher (T : Type) : Type :=
  { StartUnsafe : T -> Env -> T * Env;
    Stop : T -> Env -> Outcome (T * Env);
    Subscribe : T -> nat -> T;
    once : T -> nat }.

(** [func Start(watcher Watcher)]. *)
Definition Start {T : Type} `{Watcher T} (watcher : T) (e : Env) : Outcome (T * Env) :=
  Once_Do (once watcher) (StartUnsafe watcher) watcher e.

#[global] Instance Watch_Watcher : Watcher Watch :=
  {| StartUnsafe := Watch_StartUnsafe;
     Stop := Watch_Stop;
     Subscribe := Watch_Subscribe;
     once := Watch_once |}.

(** *** TimerWatch *)

(** [time.Duration] counts nanoseconds in an int64. *)
Definition Second : Z := 1000000000.

Record TimerWatchConf : Type := { Interval : Z }.

(** The struct embeds its configuration and a [Watch]. *)
Record TimerWatch : Type :=
  { conf : TimerWatchConf;
    base : Watch }.

Definition NewTimerWatch (c : TimerWatchConf) (e : Env) : TimerWatch * Env :=
  let (w0, e) := NewWatch e in
  let w := {| conf := c; base := w0 |} in
  if (Interval (conf w) <? 1)%Z then
    let e := emit_event
      (EvLog "[TimerWatch] Using default interval of one second since none was provided.") e in
    ({| conf := {| Interval := Second |}; base := base w |}, e)
  else (w, e).

Definition TimerWatch_StartUnsafe (w : TimerWatch) (e : Env) : TimerWatch * Env :=
  let e := emit_event (EvRun "TimerWatch.StartUnsafe") e in
  let (b, e) := Watch_StartUnsafe (base w) e in
  ({| conf := conf w; base := b |}, emit_event (EvGo "timerLoop") e).

(** [Stop], [Subscribe], [Emit] and [once] are promoted from the embedded
    [Watch]. *)
Definition TimerWatch_Stop (w : TimerWatch) (e : Env) : Outcome (TimerWatch * Env) :=
  match Watch_Stop (base w) e with
  | Returned (b, e') => Returned ({| conf := conf w; base := b |}, e')
  | Blocked (b, e') => Blocked ({| conf := conf w; base := b |}, e')
  | Panicked msg => Panicked msg
  end.

Definition TimerWatch_Subscribe (w : TimerWatch) (handler : nat) : TimerWatch :=
  {| conf := conf w; base := Watch_Subscribe (base w) handler |}.

Definition TimerWatch_Emit (w : TimerWatch) (message : Msg) (e : Env) : Outcome Env :=
  Watch_Emit (base w) message e.

#[global] Instance TimerWatch_Watcher : Watcher TimerWatch :=
  {| StartUnsafe := TimerWatch_StartUnsafe;
     Stop := TimerWatch_Stop;
     Subscribe := TimerWatch_Subscribe;
     once := fun w => Watch_once (base w) |}.

(** The two cases of the [select] in [timerLoop], in source order. *)
Inductive Case : Type := CaseTimer | CaseStop.

(** [fired]: the channel of [time.After(w.Interval)] has its value. *)
Definition ready_cases (fired stop : bool) : list Case :=
  (if fired then [CaseTimer] else []) ++ (if stop then [CaseStop] else []).

(** How one pass through the [for] of [timerLoop] ends. *)
Inductive Pass : Type :=
| Looping (e : Env)       (* emitted, back to the select *)
| Exited (e : Env)        (* took the stop case: the goroutine returns *)
| Sleeping (e : Env)      (* no case ready: still in the select *)
| Stalled (e : Env)       (* parked inside Emit *)
| Crashed (msg : string).

Definition timerLoop_pass (w : TimerWatch) (fired : bool) (pick : nat) (e : Env) : Pass :=
  match select (ready_cases fired (sig_ready (StopKey (base w)) e)) pick with
  | None => Sleeping e
  | Some CaseTimer =>
      match TimerWatch_Emit w (MInt 0) e with
      | Returned e' => Looping e'
      | Blocked e' => Stalled e'
      | Panicked msg => Crashed msg
      end
  | Some CaseStop =>
      match recv_sig (StopKey (base w)) e with
      | Some (_, e') => Exited e'
      | None => Sleeping e
      end
  end.

(** [timerLoop] along a schedule: for each pass, whether the timer has
    fired when the select is resolved and the scheduler's draw. *)
Fixpoint timerLoop (w : TimerWatch) (sched : list (bool * nat)) (e : Env) : Pass :=
  match sched with
  | [] => Sleeping e
  | (fired, pick) :: rest =>
      match timerLoop_pass w fired pick e with
      | Looping e' | Sleeping e' => timerLoop w rest e'
      | other => other
      end
  end.


(** [n] calls of [Start] on the same watcher, in the order in which the
    once cell serves them. *)
Definition StartN {T : Type} `{Watcher T} (n : nat) (watcher : T) (e : Env)
  : Outcome (T * Env) :=
  calls n (fun s => Start (fst s) (snd s)) (watcher, e).

(** *** [Start] called from several goroutines

    [sync.Once.Do] step by step, as the library has it: an atomic load of
    the done flag; when unset, the slow path locks the mutex of the cell,
    loads the flag again and, when still unset, runs the body, stores the
    flag and unlocks (the two deferred calls, in that order). *)
Inductive Pc : Type :=
| AtLoad | AtLock | AtCheck | AtBody | AtStore | AtUnlock | Finished.

(** [n] goroutines inside [Start(watcher)] on the same watcher: where each
    of them is, whether the mutex is held, and the shared state. *)
Record Race (T : Type) : Type :=
  { pcs : list Pc; mutex : bool; who : T; heap : Env }.
Arguments pcs {T} _.
Arguments mutex {T} _.
Arguments who {T} _.
Arguments heap {T} _.

Definition spawn {T : Type} (n : nat) (watcher : T) (e : Env) : Race T :=
  {| pcs := replicate n AtLoad; mutex := false; who := watcher; heap := e |}.

Definition once_done (o : nat) (e : Env) : bool :=
  match onces e !! o with Some d => d | None => false end.

Definition move {T : Type} (i : nat) (pc : Pc) (locked : bool) (r : Race T) : Race T :=
  {| pcs := <[i := pc]> (pcs r); mutex := locked; who := who r; heap := heap r |}.

(** One step of goroutine [i]; [None] when it cannot move (waiting for
    the mutex, or returned). *)
Definition step {T : Type} `{Watcher T} (i : nat) (r : Race T) : option (Race T) :=
  match pcs r !! i with
  | Some AtLoad =>
      Some (move i (if once_done (once (who r)) (heap r) then Finished else AtLock)
                 (mutex r) r)
  | Some AtLock => if mutex r then None else Some (move i AtCheck true r)
  | Some AtCheck =>
      Some (move i (if once_done (once (who r)) (heap r) then AtUnlock else AtBody)
                 (mutex r) r)
  | Some AtBody =>
      let (w', e') := StartUnsafe (who r) (heap r) in
      Some {| pcs := <[i := AtStore]> (pcs r); mutex := mutex r; who := w'; heap := e' |}
  | Some AtStore =>
      Some {| pcs := <[i := AtUnlock]> (pcs r); mutex := mutex r; who := who r;
              heap := set_once (once (who r)) true (heap r) |}
  | Some AtUnlock => Some (move i Finished false r)
  | Some Finished | None => None
  end.

(** A schedule names the goroutine to move next; a goroutine that cannot
    move leaves the state as it is. *)
Fixpoint interleave {T : Type} `{Watcher T} (sched : list nat) (r : Race T) : Race T :=
  match sched with
  | [] => r
  | i :: rest =>
      interleave rest (match step i r with Some r' => r' | None => r end)
  end.

Definition Pc_eq_dec (a b : Pc) : {a = b} + {a <> b}.
Proof. decide equality. Defined.

Definition at_pc (pc : Pc) (r : list Pc) : nat := count_occ Pc_eq_dec r pc.

(** How many of the goroutines have returned from [Start]. *)
Definition returned {T : Type} (r : Race T) : nat := at_pc Finished (pcs r).

Definition all_finished {T : Type} (r : Race T) : Prop :=
  returned r = length (pcs r).

(** What every interleaving keeps true, from the watcher [w0] and heap
    [e0] the goroutines started on.  The mutex is held by the one goroutine
    between its lock and its unlock; and either the body has not run, or it
    has run and the flag is not stored yet, or the flag is stored. *)
Definition race_inv {T : Type} `{Watcher T} (w0 : T) (e0 : Env) (r : Race T) : Prop :=
  at_pc AtCheck (pcs r) + at_pc AtBody (pcs r) + at_pc AtStore (pcs r)
    + at_pc AtUnlock (pcs r) = (if mutex r then 1 else 0)
  /\ ((who r = w0 /\ heap r = e0
       /\ at_pc AtStore (pcs r) = 0 /\ at_pc AtUnlock (pcs r) = 0
       /\ at_pc Finished (pcs r) = 0)
      \/ (who r = fst (StartUnsafe w0 e0) /\ heap r = snd (StartUnsafe w0 e0)
          /\ at_pc AtStore (pcs r) = 1 /\ at_pc Finished (pcs r) = 0)
      \/ (who r = fst (StartUnsafe w0 e0)
          /\ heap r = set_once (once w0) true (snd (StartUnsafe w0 e0))
          /\ at_pc AtBody (pcs r) = 0 /\ at_pc AtStore (pcs r) = 0)).

(** What the rest of the program may do to the heap while a watcher
    lives: anything that leaves the watcher's once cell and stop channel
    alone (both are reached through the watcher only). *)
Definition frame (w : Watch) (e e' : Env) : Prop :=
  onces e' !! startOnce w = onces e !! startOnce w
  /\ sigs e' !! StopKey w = sigs e !! StopKey w.

(** The states a watcher built by [NewWatch] reaches through the
    package: [Start], [Stop], [Subscribe], [Emit], and the timer loop
    taking the stop signal. *)
Inductive reachable : Watch -> Env -> Prop :=
| reach_NewWatch (e : Env) :
    reachable (fst (NewWatch e)) (snd (NewWatch e))
| reach_Start (w w' : Watch) (e e' : Env) :
    reachable w e -> Start w e = Returned (w', e') -> reachable w' e'
| reach_Stop (w w' : Watch) (e e' : Env) :
    reachable w e -> Watch_Stop w e = Returned (w', e') -> reachable w' e'
| reach_Subscribe (w : Watch) (e : Env) (handler : nat) :
    reachable w e -> reachable (Watch_Subscribe w handler) e
| reach_Emit (w : Watch) (e e' : Env) (m : Msg) :
    reachable w e ->
    Watch_Emit w m e = Returned e' \/ Watch_Emit w m e = Blocked e' ->
    reachable w e'
| reach_stop_taken (w : Watch) (e e' : Env) (b : bool) :
    reachable w e -> recv_sig (StopKey w) e = Some (b, e') -> reachable w e'
| reach_frame (w : Watch) (e e' : Env) :
    reachable w e -> frame w e e' -> reachable w e'.

(** The invariant of the reachable states: the stop channel is the open
    one-slot channel of [NewWatch], empty as long as the watcher has not
    been stopped. *)
Definition inv (w : Watch) (e : Env) : Prop :=
  exists (d : bool) (c : chan.t bool),
    onces e !! startOnce w = Some d
    /\ sigs e !! StopKey w = Some c
    /\ chan.cap c = 1 /\ chan.recvq c = 0 /\ chan.closed c = false
    /\ (d = false -> Running w = false /\ chan.buf c = [])
    /\ (Running w = true -> chan.buf c = [])
    /\ length (chan.buf c) <= 1.

(** The three states of a watcher, read off its once cell and its
    [Running] field; a watcher Running with an unset cell has no state. *)
Inductive Phase : Type := Created | Started | Stopped.

Definition phase (w : Watch) (e : Env) : option Phase :=
  match onces e !! startOnce w, Running w with
  | Some false, false => Some Created
  | Some true, true => Some Started
  | Some true, false => Some Stopped
  | _, _ => None
  end.

(** The heap a pass of the timer loop leaves, when it leaves one. *)
Definition pass_env (p : Pass) : option Env :=
  match p with
  | Looping e | Exited e | Sleeping e | Stalled e => Some e
  | Crashed _ => None
  end.

(** The passes of a schedule whose timer has fired. *)
Fixpoint ticks (sched : list (bool * nat)) : nat :=
  match sched with
  | [] => 0
  | (fired, _) :: rest => (if fired then 1 else 0) + ticks rest
  end.
End watch.

(** ** package algorand *)

Module algorand.
Local Open Scope string_scope.

(** [type Algorand struct {}]: the adapter keeps no field. *)
Inductive Algorand : Type := mkAlgorand.

Definition DefaultAlgorandPath : string := "./internal/pkg/global/algorand.yml".

Definition NewAlgorand : Algorand * option fingerprint.error := (mkAlgorand, None).

Definition IsConfigured (a : Algorand) : Outcome bool :=
  Panicked "implement me!".

Definition Discover (a : Algorand) : Outcome (option fingerprint.error) :=
  Panicked "implement me!".

Definition ResetConfig (a : Algorand) : Outcome (option fingerprint.error) :=
  Panicked "implement me!".

Definition Hello (a : Algorand) : string := "Algorand".

Definition ContainerRegex (a : Algorand) : list string := [].

Definition NodeLogPath (a : Algorand) : Outcome string :=
  Panicked "implement me!".
End algorand.

(** ** package global: the stream registry *)

Module global.
(** A [Stream] value is a sink, known by its identity; the registry only
    ever calls its [Start]. *)
Definition Stream : Type := nat.

Record StreamRegisterer : Type := { streams : list Stream }.

Definition newRegisterer : StreamRegisterer := {| streams := [] |}.

Definition Register (r : StreamRegisterer) (w : list Stream)
  : StreamRegisterer * option fingerprint.error :=
  ({| streams := streams r ++ w |}, None).

(** One call [s.Start(ctx, wg, ch)]. *)
Record StartCall : Type :=
  { callee : Stream; ctx : nat; wg : nat; ch : nat }.

(** [Start] calls every registered sink in turn with the same context,
    wait group and channel, and returns nil. *)
Definition Start (r : StreamRegisterer) (ctx wg ch : nat)
  : list StartCall * option fingerprint.error :=
  (map (fun s => {| callee := s; ctx := ctx; wg := wg; ch := ch |}) (streams r), None).

(** Modelled from the spec: a sample, "an opaque unit of observed data". *)
Definition Sample : Type := nat.

(** Modelled from the spec: the run loops of the sinks, which are not in
    the sources.  "Each sink is responsible for consuming from the shared
    channel": every started sink receives from the one channel it was
    given, and a receive takes the oldest value off the channel, as a Go
    receive does.  [seen] holds what each sink has received, by position
    in the registry. *)
Record Pipeline : Type :=
  { queue : list Sample;          (* pushed, not yet received *)
    pushed : list Sample;         (* every sample pushed so far *)
    seen : list (list Sample) }.

(** Modelled from the spec: the pipeline right after [Start], one sink per
    call, nothing pushed and nothing received. *)
Definition started (calls : list StartCall) : Pipeline :=
  {| queue := []; pushed := []; seen := map (fun _ => []) calls |}.

(** Modelled from the spec: what the producer and the sinks do. *)
Inductive Action : Type :=
| Push (s : Sample)       (* the producer sends on the shared channel *)
| Recv (i : nat).         (* sink number [i] receives from it *)

(** Modelled from the spec: one action; a receive needs a queued sample
    and a started sink. *)
Definition step (p : Pipeline) (a : Action) : option Pipeline :=
  match a with
  | Push s =>
      Some {| queue := queue p ++ [s]; pushed := pushed p ++ [s]; seen := seen p |}
  | Recv i =>
      match queue p, seen p !! i with
      | s :: rest, Some log =>
          Some {| queue := rest; pushed := pushed p;
                  seen := <[i := log ++ [s]]> (seen p) |}
      | _, _ => None
      end
  end.

(** Modelled from the spec: a run of the pipeline, action after action. *)
Fixpoint run (p : Pipeline) (acts : list Action) : option Pipeline :=
  match acts with
  | [] => Some p
  | a :: rest =>
      match step p a with
      | Some p' => run p' rest
      | None => None
      end
  end.

(** The samples taken off the channel so far. *)
Definition taken (p : Pipeline) : list Sample :=
  take (length (pushed p) - length (queue p)) (pushed p).

(** What every run of the pipeline keeps true, [tk] being the samples
    taken off the channel: they are the pushed ones short of the queue,
    the sinks' logs together hold each of them once, and each log is a
    subsequence of them. *)
Definition shared (p : Pipeline) (tk : list Sample) : Prop :=
  pushed p = tk ++ queue p
  /\ concat (seen p) ≡ₚ tk
  /\ Forall (fun log => sublist log tk) (seen p).
End global.

(** ** unicode/utf8 and the conversion of an int64 to float64 *)

Module utf8.
(** The second byte a leading byte [b] asks for, as a range, and how many
    continuation bytes follow the leading one: the table of the package
    (well-formed sequences only, so no overlong form, no surrogate,
    nothing beyond U+10FFFF). *)
Definition lead (b : N) : option (N * N * nat) :=
  (if (0xC2 <=? b) && (b <=? 0xDF) then Some (0x80, 0xBF, 1%nat)
   else if b =? 0xE0 then Some (0xA0, 0xBF, 2%nat)
   else if (0xE1 <=? b) && (b <=? 0xEC) then Some (0x80, 0xBF, 2%nat)
   else if b =? 0xED then Some (0x80, 0x9F, 2%nat)
   else if (0xEE <=? b) && (b <=? 0xEF) then Some (0x80, 0xBF, 2%nat)
   else if b =? 0xF0 then Some (0x90, 0xBF, 3%nat)
   else if (0xF1 <=? b) && (b <=? 0xF3) then Some (0x80, 0xBF, 3%nat)
   else if b =? 0xF4 then Some (0x80, 0x8F, 3%nat)
   else None)%N.

Definition within (lo hi : N) (c : ascii) : bool :=
  ((lo <=? N_of_ascii c) && (N_of_ascii c <=? hi))%N.

Definition continuation : ascii -> bool := within 0x80 0xBF.

(** [utf8.ValidString]. *)
Fixpoint ValidString (s : string) : bool :=
  match s with
  | EmptyString => true
  | String c rest =>
      if (N_of_ascii c <? 0x80)%N then ValidString rest
      else
        match lead (N_of_ascii c), rest with
        | Some (lo, hi, 1), String c2 rest2 =>
            within lo hi c2 && ValidString rest2
        | Some (lo, hi, 2), String c2 (String c3 rest3) =>
            within lo hi c2 && continuation c3 && ValidString rest3
        | Some (lo, hi, 3), String c2 (String c3 (String c4 rest4)) =>
            within lo hi c2 && continuation c3 && continuation c4 && ValidString rest4
        | _, _ => false
        end
  end.
End utf8.

(** [float64(v)] for an int64 [v]: the nearest binary64 value, a tie going
    to the even significand of 53 bits.  A binary64 value of that size is
    a whole number, so the result is held exactly. *)
Definition float64 (v : Z) : Z :=
  let a := Z.abs v in
  let excess := (Z.log2 a + 1 - 53)%Z in
  if (excess <=? 0)%Z then v
  else
    let q := Z.shiftr a excess in
    let r := Z.land a (Z.ones excess) in
    let half := Z.shiftl 1 (excess - 1) in
    let q' := if (half <? r)%Z || ((r =? half)%Z && Z.odd q) then (q + 1)%Z else q in
    (Z.sgn v * Z.shiftl q' excess)%Z.

(** ** package collector: the network class collector *)

Module collector.
Local Open Scope string_scope.

(** Errors as the collector tells them apart: the sentinels
    [os.ErrNotExist] and [os.ErrPermission], the package's [ErrNoData]
    (declared outside these sources), any other error, and an error wrapped
    with [%w] under a message. *)
Inductive error : Type :=
| ErrNotExist
| ErrPermission
| ErrNoData
| ErrOther (msg : string)
| Wrap (msg : string) (err : error).

Definition error_eq_dec (a b : error) : {a = b} + {a <> b}.
Proof. decide equality; apply string_dec. Defined.

(** [errors.Is]: the error itself or one it wraps. *)
Fixpoint Is (err target : error) : bool :=
  if error_eq_dec err target then true
  else match err with
       | Wrap _ inner => Is inner target
       | _ => false
       end.

Inductive result (A : Type) : Type :=
| Ok (a : A)
| Err (e : error).
Arguments Ok {A} a.
Arguments Err {A} e.

(** [sysfs.NetClassIface], the fields the collector reads; a [*int64] is
    an optional integer. *)
Record NetClassIface : Type :=
  { Name : string;
    AddrAssignType : option Z;
    Address : string;
    Broadcast : string;
    Carrier : option Z;
    CarrierChanges : option Z;
    CarrierUpCount : option Z;
    CarrierDownCount : option Z;
    DevID : option Z;
    Dormant : option Z;
    Duplex : string;
    Flags : option Z;
    IfAlias : string;
    IfIndex : option Z;
    IfLink : option Z;
    LinkMode : option Z;
    MTU : option Z;
    NameAssignType : option Z;
    NetDevGroup : option Z;
    OperState : string;
    Speed : option Z;
    TxQueueLen : option Z;
    Type_ : option Z }.

(** [sysfs.FS], the two calls the collector makes. *)
Record FS : Type :=
  { NetClassDevices : result (list string);
    NetClassByIface : string -> result NetClassIface }.

(** [prometheus.ValueType]. *)
Inductive ValueType : Type := CounterValue | GaugeValue.

(** The errors of the Prometheus client met here, by kind (their text
    varies with the version of the library): those [NewDesc] stores in the
    descriptor and those [NewConstMetric] returns. *)
Inductive LibError : Type :=
| InvalidMetricName (fq : string)
| InvalidLabelName (label fq : string)
| DuplicateLabelNames (fq : string)
| InconsistentCardinality (expected got : nat)
| InvalidLabelValue (val : string).

(** [prometheus.Desc], with the error [NewDesc] found, if any. *)
Record Desc : Type :=
  { fqName : string; help : string; variableLabels : list string;
    descErr : option LibError }.

(** A constant metric.  [value] is the float64 it carries; every value
    this collector sends is a whole number, held exactly. *)
Record Metric : Type :=
  { desc : Desc; valueType : ValueType; value : Z; labelValues : list string }.

(** How a call of a [Must...] function ends: with its result, or in a
    panic on the error. *)
Inductive Must (A : Type) : Type :=
| Built (a : A)
| Panics (err : LibError).
Arguments Built {A} a.
Arguments Panics {A} err.

(** [prometheus.BuildFQName]: the non-empty parts joined by "_", nothing
    for an empty name. *)
Definition BuildFQName (namespace subsystem name : string) : string :=
  if String.eqb name "" then ""
  else if negb (String.eqb namespace "") && negb (String.eqb subsystem "")
       then namespace ++ "_" ++ subsystem ++ "_" ++ name
  else if negb (String.eqb namespace "") then namespace ++ "_" ++ name
  else if negb (String.eqb subsystem "") then subsystem ++ "_" ++ name
  else name.

(** [prometheus.NewConstMetric] and [prometheus.MustNewConstMetric]: the
    error of the descriptor, then the number of label values, then each
    label value, which has to be valid UTF-8. *)
Definition NewConstMetric (d : Desc) (vt : ValueType) (v : Z) (lvs : list string)
  : Metric + LibError :=
  match descErr d with
  | Some err => inr err
  | None =>
      if negb (length lvs =? length (variableLabels d))%nat
      then inr (InconsistentCardinality (length (variableLabels d)) (length lvs))
      else
        match List.find (fun val => negb (utf8.ValidString val)) lvs with
        | Some val => inr (InvalidLabelValue val)
        | None => inl {| desc := d; valueType := vt; value := v; labelValues := lvs |}
        end
  end.

Definition MustNewConstMetric (d : Desc) (vt : ValueType) (v : Z) (lvs : list string)
  : Must Metric :=
  match NewConstMetric d vt v lvs with
  | inl m => Built m
  | inr err => Panics err
  end.

(** Lines handed to the logger. *)
Inductive LogLine : Type :=
| Debugw (msg : string) (err : error)
| LogError (err : error).

(** [collector.netclass.ignored-devices] and
    [collector.netclass.ignore-invalid-speed], at their values in the
    source. *)
Definition netclassIgnoredDevices : string := "^$".
Definition netclassInvalidSpeed : bool := false.

(** [regexp.MustCompile("^$").MatchString]: the empty text alone. *)
Definition MatchString_empty (device : string) : bool := String.eqb device "".

Record netClassCollector : Type :=
  { fs : FS;
    subsystem : string;
    ignoredDevicesPattern : string -> bool;     (* its [MatchString] *)
    metricDescs : gmap string Desc }.

(** [NewNetClassCollector]; [newFS] is what [sysfs.NewFS(sysPath)] answers. *)
Definition NewNetClassCollector (newFS : result FS) : result netClassCollector :=
  match newFS with
  | Err err => Err (Wrap "failed to open sysfs" err)
  | Ok f =>
      Ok {| fs := f; subsystem := "network";
            ignoredDevicesPattern := MatchString_empty;
            metricDescs := ∅ |}
  end.

(** The loop of [getNetClassInfo] over the devices still to read. *)
Fixpoint readDevices (c : netClassCollector) (netDevices : list string)
    (netClass : gmap string NetClassIface)
  : gmap string NetClassIface * option error :=
  match netDevices with
  | [] => (netClass, None)
  | device :: rest =>
      if ignoredDevicesPattern c device then readDevices c rest netClass
      else
        match NetClassByIface (fs c) device with
        | Err err => (netClass, Some err)
        | Ok interfaceClass => readDevices c rest (<[device := interfaceClass]> netClass)
        end
  end.

Definition getNetClassInfo (c : netClassCollector)
  : gmap string NetClassIface * option error :=
  match NetClassDevices (fs c) with
  | Err err => (∅, Some err)
  | Ok netDevices => readDevices c netDevices ∅
  end.

(** int64 arithmetic with its wrap-around. *)
Definition wrap64 (z : Z) : Z := ((z + 2 ^ 63) mod 2 ^ 64 - 2 ^ 63)%Z.

(** The speed in bytes: the product of the speed by 1000 and by 1000
    again, divided by 8, all on int64. *)
Definition speedBytes (speed : Z) : Z :=
  Z.quot (wrap64 (wrap64 (speed * 1000) * 1000)) 8.

(** The sends [ch <- prometheus.MustNewConstMetric(...)] of a run, in
    order: the metrics are sent up to the first call that panics, which
    ends the run. *)
Fixpoint sendAll (calls : list (Must Metric)) : list Metric * option LibError :=
  match calls with
  | [] => ([], None)
  | Built m :: rest => let (ms, err) := sendAll rest in (m :: ms, err)
  | Panics err :: _ => ([], Some err)
  end.

(** What a call of [Collect] did: the metrics sent on the channel, in
    order, the lines logged, and the error it panicked on, if it did. *)
Record Run : Type :=
  { sent : list Metric; logged : list LogLine; panicked : option LibError }.

Section WithNamespace.
(** The constant [namespace] of the package, declared outside these
    sources. *)
Variable namespace : string.

(** [model.IsValidMetricName] and the check of a label name that
    [prometheus.NewDesc] makes; what they accept depends on the version
    and the validation scheme of the library. *)
Variable IsValidMetricName : string -> bool.
Variable checkLabelName : string -> bool.

(** [prometheus.NewDesc] without constant labels: the descriptor keeps
    the first error met, on the metric name, then on each label name in
    order, then on label names given twice. *)
Definition NewDesc (fq hlp : string) (labels : list string) : Desc :=
  {| fqName := fq; help := hlp; variableLabels := labels;
     descErr :=
       if negb (IsValidMetricName fq) then Some (InvalidMetricName fq)
       else
         match List.find (fun label => negb (checkLabelName label)) labels with
         | Some label => Some (InvalidLabelName label fq)
         | None =>
             if negb (length (remove_dups labels) =? length labels)%nat
             then Some (DuplicateLabelNames fq)
             else None
         end |}.

(** The descriptors built in [Collect] and [Describe], and in
    [pushMetric] and [pushDesc]. *)
Definition upDesc (c : netClassCollector) : Desc :=
  NewDesc (BuildFQName namespace (subsystem c) "up")
          "Value is 1 if operstate is 'up', 0 otherwise." ["device"].

Definition infoDesc (c : netClassCollector) : Desc :=
  NewDesc (BuildFQName namespace (subsystem c) "info")
          "Non-numeric data from /sys/class/net/<iface>, value is always 1."
          ["device"; "address"; "broadcast"; "duplex"; "operstate"; "ifalias"].

Definition fieldDesc (subsys name : string) : Desc :=
  NewDesc (BuildFQName namespace subsys name)
          (name ++ " value of /sys/class/net/<iface>.") ["device"].


Definition pushMetric (subsys name : string) (v : Z) (ifaceName : string)
    (vt : ValueType) : list (Must Metric) :=
  [MustNewConstMetric (fieldDesc subsys name) vt (float64 v) [ifaceName]].

(** [if field != nil { pushMetric(...) }]. *)
Definition pushMetricIf (subsys name : string) (field : option Z) (ifaceName : string)
    (vt : ValueType) : list (Must Metric) :=
  match field with
  | Some v => pushMetric subsys name v ifaceName vt
  | None => []
  end.


(** The body of the [range] loop of [Collect]: the calls of
    [MustNewConstMetric] whose results are sent on the channel for one
    interface, in order. *)
Definition collectIface (c : netClassCollector) (ifaceInfo : NetClassIface)
  : list (Must Metric) :=
  let upValue := if String.eqb (OperState ifaceInfo) "up" then 1%Z else 0%Z in
  let infoValue := 1%Z in
  [MustNewConstMetric (upDesc c) GaugeValue upValue [Name ifaceInfo]]
  ++ [MustNewConstMetric (infoDesc c) GaugeValue infoValue
        [Name ifaceInfo; Address ifaceInfo; Broadcast ifaceInfo; Duplex ifaceInfo;
         OperState ifaceInfo; IfAlias ifaceInfo]]
  ++ pushMetricIf (subsystem c) "address_assign_type" (AddrAssignType ifaceInfo)
       (Name ifaceInfo) GaugeValue
  ++ pushMetricIf (subsystem c) "carrier" (Carrier ifaceInfo) (Name ifaceInfo) GaugeValue
  ++ pushMetricIf (subsystem c) "carrier_changes_total" (CarrierChanges ifaceInfo)
       (Name ifaceInfo) CounterValue
  ++ pushMetricIf (subsystem c) "carrier_up_changes_total" (CarrierUpCount ifaceInfo)
       (Name ifaceInfo) CounterValue
  ++ pushMetricIf (subsystem c) "carrier_down_changes_total" (CarrierDownCount ifaceInfo)
       (Name ifaceInfo) CounterValue
  ++ pushMetricIf (subsystem c) "device_id" (DevID ifaceInfo) (Name ifaceInfo) GaugeValue
  ++ pushMetricIf (subsystem c) "dormant" (Dormant ifaceInfo) (Name ifaceInfo) GaugeValue
  ++ pushMetricIf (subsystem c) "flags" (Flags ifaceInfo) (Name ifaceInfo) GaugeValue
  ++ pushMetricIf (subsystem c) "iface_id" (IfIndex ifaceInfo) (Name ifaceInfo) GaugeValue
  ++ pushMetricIf (subsystem c) "iface_link" (IfLink ifaceInfo) (Name ifaceInfo) GaugeValue
  ++ pushMetricIf (subsystem c) "iface_link_mode" (LinkMode ifaceInfo)
       (Name ifaceInfo) GaugeValue
  ++ pushMetricIf (subsystem c) "mtu_bytes" (MTU ifaceInfo) (Name ifaceInfo) GaugeValue
  ++ pushMetricIf (subsystem c) "name_assign_type" (NameAssignType ifaceInfo)
       (Name ifaceInfo) GaugeValue
  ++ pushMetricIf (subsystem c) "net_dev_group" (NetDevGroup ifaceInfo)
       (Name ifaceInfo) GaugeValue
  ++ match Speed ifaceInfo with
     | Some speed =>
         if (0 <=? speed)%Z || negb netclassInvalidSpeed
         then pushMetric (subsystem c) "speed_bytes" (speedBytes speed)
                (Name ifaceInfo) GaugeValue
         else []
     | None => []
     end
  ++ pushMetricIf (subsystem c) "transmit_queue_length" (TxQueueLen ifaceInfo)
       (Name ifaceInfo) GaugeValue
  ++ pushMetricIf (subsystem c) "protocol_type" (Type_ ifaceInfo)
       (Name ifaceInfo) GaugeValue.


(** The interfaces a [range] over the map visits, for the order [visit]
    in which the runtime hands out the keys. *)
Definition ranged (netClass : gmap string NetClassIface) (visit : list string)
  : list NetClassIface :=
  omap (fun device => netClass !! device) visit.

(** What both methods log when [getNetClassInfo] fails. *)
Definition logFailure (err : error) : list LogLine :=
  if Is err ErrNotExist || Is err ErrPermission
  then [Debugw "Could not read netclass file" err; LogError ErrNoData]
  else [LogError (Wrap "could not get net class info" err)].

(** [Collect]. *)
Definition Collect (c : netClassCollector) (visit : list string) : Run :=
  let (netClass, err) := getNetClassInfo c in
  match err with
  | Some err => {| sent := []; logged := logFailure err; panicked := None |}
  | None =>
      let (ms, p) := sendAll (flat_map (collectIface c) (ranged netClass visit)) in
      {| sent := ms; logged := []; panicked := p |}
  end.


(** The names of the optional fields, and whether every descriptor of
    the collector was built without error. *)
Definition fieldNames : list string :=
  ["address_assign_type"; "carrier"; "carrier_changes_total";
   "carrier_up_changes_total"; "carrier_down_changes_total"; "device_id";
   "dormant"; "flags"; "iface_id"; "iface_link"; "iface_link_mode";
   "mtu_bytes"; "name_assign_type"; "net_dev_group"; "speed_bytes";
   "transmit_queue_length"; "protocol_type"].

Definition descs_valid (c : netClassCollector) : bool :=
  forallb (fun d => match descErr d with None => true | Some _ => false end)
          (upDesc c :: infoDesc c :: map (fieldDesc (subsystem c)) fieldNames).
End WithNamespace.

(** A metric of the interface [i] as the library wants it: as many label
    values as its descriptor has labels, the first label being the device,
    valued with the name of the interface. *)
Definition well_labelled (i : NetClassIface) (m : Metric) : Prop :=
  length (labelValues m) = length (variableLabels (desc m))
  /\ head (variableLabels (desc m)) = Some "device"
  /\ head (labelValues m) = Some (Name i).

(** The six texts of an interface that become label values. *)
Definition texts (i : NetClassIface) : list string :=
  [Name i; Address i; Broadcast i; Duplex i; OperState i; IfAlias i].

End collector.

(** ** Sample data *)

(** A writer that takes everything it is given. *)
Definition devnull : fingerprint.Writer :=
  {| fingerprint.write := fun p => (length p, None) |}.

(** The empty heap. *)
Definition heap0 : Env := {| onces := ∅; sigs := ∅; chans := ∅; trace := [] |}.

(** A heap with two subscriber channels: number 1 buffers two values,
    number 2 is unbuffered with one goroutine parked in a receive. *)
Definition heap2 : Env :=
  {| onces := ∅; sigs := ∅;
     chans := <[1 := chan.make 2]>
                (<[2 := {| chan.buf := []; chan.cap := 0;
                           chan.recvq := 1; chan.closed := false |}]> ∅);
     trace := [] |}.

(** A timer watch with subscriber 1, started and then stopped, its timer
    goroutine not yet scheduled again. *)
Definition stopped_timer : option (watch.TimerWatch * Env) :=
  let (w0, e0) := watch.NewTimerWatch {| watch.Interval := 1 |} heap2 in
  let w1 := watch.TimerWatch_Subscribe w0 1 in
  match watch.Start w1 e0 with
  | Returned (w2, e2) =>
      match watch.TimerWatch_Stop w2 e2 with
      | Returned s => Some s
      | _ => None
      end
  | _ => None
  end.

(** A registry with three sinks A, B, C (10, 11, 12), registered in that
    order. *)
Definition abc : global.StreamRegisterer :=
  fst (global.Register global.newRegisterer [10; 11; 12]).

(** Three goroutines scheduled in turn, twenty rounds. *)
Definition round_robin : list nat := concat (replicate 20 [0; 1; 2]).

(** A timer watch with subscriber 1, started. *)
Definition running_timer : watch.TimerWatch * Env :=
  let (w0, e0) := watch.NewTimerWatch {| watch.Interval := 1 |} heap2 in
  match watch.Start (watch.TimerWatch_Subscribe w0 1) e0 with
  | Returned s => s
  | _ => (w0, e0)
  end.

(** A sysfs with three network devices: the loopback, a wired interface
    that is up at 1000 Mbit/s, and a wireless one whose speed is unknown
    (-1); and one where the wireless device cannot be read. *)
Definition iface (name state : string) (speed mtu : option Z) : collector.NetClassIface :=
  {| collector.Name := name; collector.AddrAssignType := None;
     collector.Address := "02:00:00:00:00:01"; collector.Broadcast := "ff:ff:ff:ff:ff:ff";
     collector.Carrier := Some 1%Z; collector.CarrierChanges := Some 2%Z;
     collector.CarrierUpCount := None; collector.CarrierDownCount := None;
     collector.DevID := None; collector.Dormant := None; collector.Duplex := "full";
     collector.Flags := None; collector.IfAlias := ""; collector.IfIndex := None;
     collector.IfLink := None; collector.LinkMode := None; collector.MTU := mtu;
     collector.NameAssignType := None; collector.NetDevGroup := None;
     collector.OperState := state; collector.Speed := speed;
     collector.TxQueueLen := None; collector.Type_ := None |}.

Definition sysfs_ok : collector.FS :=
  {| collector.NetClassDevices := collector.Ok ["lo"; "eth0"; "wlan0"]%string;
     collector.NetClassByIface := fun device =>
       if String.eqb device "lo" then collector.Ok (iface "lo" "unknown" None (Some 65536%Z))
       else if String.eqb device "eth0"
            then collector.Ok (iface "eth0" "up" (Some 1000%Z) (Some 1500%Z))
       else if String.eqb device "wlan0"
            then collector.Ok (iface "wlan0" "down" (Some (-1)%Z) (Some 1500%Z))
       else collector.Err collector.ErrNotExist |}.


Definition collector_of (f : collector.FS) : collector.netClassCollector :=
  match collector.NewNetClassCollector (collector.Ok f) with
  | collector.Ok c => c
  | collector.Err _ =>
      {| collector.fs := f; collector.subsystem := "";
         collector.ignoredDevicesPattern := fun _ => true; collector.metricDescs := ∅ |}
  end.

(** The name checks of the library in its legacy scheme: a metric name
    is a letter, "_" or ":" followed by letters, digits, "_" and ":"; a
    label name has no ":" and does not start with "__". *)
Definition name_char (colon : bool) (first : bool) (c : ascii) : bool :=
  let n := nat_of_ascii c in
  ((65 <=? n) && (n <=? 90) || (97 <=? n) && (n <=? 122) || (n =? 95)
   || colon && (n =? 58) || negb first && (48 <=? n) && (n <=? 57))%nat.

Definition legacyMetricName (s : string) : bool :=
  match s with
  | EmptyString => false
  | String c rest => name_char true true c && fingerprint.all_chars (name_char true false) rest
  end.

Definition legacyLabelName (s : string) : bool :=
  match s with
  | EmptyString => false
  | String c rest =>
      name_char false true c && fingerprint.all_chars (name_char false false) rest
      && negb (String.prefix "__" s)
  end.

(** An interface whose name is the single byte 0xFF, and one whose alias
    is. *)
Definition odd_name : collector.NetClassIface :=
  iface (String "255"%char EmptyString) "up" None None.

Definition odd_alias : collector.NetClassIface :=
  {| collector.Name := "eth1"; collector.AddrAssignType := None;
     collector.Address := ""; collector.Broadcast := "";
     collector.Carrier := None; collector.CarrierChanges := None;
     collector.CarrierUpCount := None; collector.CarrierDownCount := None;
     collector.DevID := None; collector.Dormant := None; collector.Duplex := "";
     collector.Flags := None; collector.IfAlias := String "255"%char EmptyString;
     collector.IfIndex := None; collector.IfLink := None; collector.LinkMode := None;
     collector.MTU := Some 1500%Z; collector.NameAssignType := None;
     collector.NetDevGroup := None; collector.OperState := "up";
     collector.Speed := None; collector.TxQueueLen := None; collector.Type_ := None |}.

Definition stopped_state : watch.TimerWatch * Env :=
  match stopped_timer with
  | Some s => s
  | None => watch.NewTimerWatch {| watch.Interval := 1 |} heap2
  end.



(** * Properties *)

(** ** SHA-256 known answers (FIPS 180-4 examples) *)

Example sha256_empty :
  fmt.Sprintf_x (sha256.Sum256 [])
  = "e3b0c44298fc1c149afbf4c8996fb92427ae41e4649b934ca495991b7852b855"%string.
Proof. vm_compute. reflexivity. Qed.

Example sha256_abc :
  fmt.Sprintf_x (sha256.Sum256 (list_byte_of_string "abc"))
  = "ba7816bf8f01cfea414140de5dae2223b00361a396177a9cb410ff61f20015ad"%string.
Proof. vm_compute. reflexivity. Qed.

Example sha256_two_blocks :
  fmt.Sprintf_x (sha256.Sum256 (list_byte_of_string
    "abcdbcdecdefdefgefghfghighijhijkijkljklmklmnlmnomnopnopq"))
  = "248d6a61d20638b8e5c026930c3e6039a33ce45964ff2167f6ecedd419db06c1"%string.
Proof. vm_compute. reflexivity. Qed.

(** ** Fingerprints *)

Section FingerprintFacts.
Import fingerprint.
Local Open Scope string_scope.

Lemma string_of_list_byte_length (l : list byte) :
  String.length (string_of_list_byte l) = length l.
Proof.
  unfold string_of_list_byte.
  induction l as [|b l IH]; simpl; [reflexivity | now rewrite IH].
Qed.

Lemma Sum256_length (data : list byte) : length (sha256.Sum256 data) = 32.
Proof.
  unfold sha256.Sum256.
  destruct (fold_left sha256.block _ sha256.init) as [[[[[[[a b] c] d] e] f] g] h].
  reflexivity.
Qed.

Lemma Sprintf_x_length (bs : list byte) :
  String.length (fmt.Sprintf_x bs) = 2 * length bs.
Proof. induction bs as [|b bs IH]; simpl; [reflexivity | rewrite IH; lia]. Qed.

Lemma digit_pair_lower_hex (b : byte) :
  is_lower_hex (fmt.digit (N.shiftr (Byte.to_N b) 4))
  && is_lower_hex (fmt.digit (N.land (Byte.to_N b) 15)) = true.
Proof. destruct b; vm_compute; reflexivity. Qed.

Lemma Sprintf_x_lower_hex (bs : list byte) :
  all_chars is_lower_hex (fmt.Sprintf_x bs) = true.
Proof.
  induction bs as [|b bs IH]; simpl; [reflexivity |].
  pose proof (digit_pair_lower_hex b) as Hb.
  apply andb_prop in Hb as [H1 H2]. now rewrite H1, H2, IH.
Qed.

Lemma New_eq (w : Writer) (val : list byte) :
  New w val = ({| out := Some w; hash := fmt.Sprintf_x (sha256.Sum256 val) |}, None).
Proof.
  unfold New, sha256.Write, sha256.Sum, sha256.New. simpl.
  rewrite Nat.eqb_refl. simpl.
  rewrite Sprintf_x_length, Sum256_length. reflexivity.
Qed.

Lemma validate_store (fp : Fingerprint) (p : list byte) :
  validate fp (store p) =
    if (1 <? length p)%nat && negb (string_of_list_byte p =? hash fp)
    then Some (ValidationError (errorString
           ("hash mismatch detected, expected " ++ string_of_list_byte p
            ++ ", got " ++ hash fp)))
    else None.
Proof.
  unfold validate, store, ReadAll, validationError. cbn [contents failure].
  now rewrite string_of_list_byte_length.
Qed.
End FingerprintFacts.

(** C9.  For every writer and every byte slice, [New] returns no error and a
    fingerprint whose [Hash()] is the hexadecimal text of the SHA-256 digest
    of the slice: 64 characters, all of them lower-case hexadecimal digits.
    Neither error branch of [New] is taken, and the digest depends on the
    slice alone. *)
Theorem New_hash_is_sha256_hex (w w' : fingerprint.Writer) (val : list byte) :
  fingerprint.New w val
    = ({| fingerprint.out := Some w;
          fingerprint.hash := fmt.Sprintf_x (sha256.Sum256 val) |}, None)
  /\ snd (fingerprint.New w val) = None
  /\ fingerprint.Hash (fst (fingerprint.New w val)) = fmt.Sprintf_x (sha256.Sum256 val)
  /\ String.length (fingerprint.Hash (fst (fingerprint.New w val))) = 64
  /\ fingerprint.all_chars fingerprint.is_lower_hex
       (fingerprint.Hash (fst (fingerprint.New w val))) = true
  /\ fingerprint.Hash (fst (fingerprint.New w val))
     = fingerprint.Hash (fst (fingerprint.New w' val)).
Proof.
  rewrite !New_eq. simpl. unfold fingerprint.Hash. simpl.
  repeat split.
  - rewrite Sprintf_x_length, Sum256_length. reflexivity.
  - apply Sprintf_x_lower_hex.
Qed.

(** C10.  A previous digest of length 0 or 1 is treated as absent: whatever
    the fingerprint, validation against such a store returns no error. *)
Theorem validate_ignores_short_previous (fp : fingerprint.Fingerprint) (p : list byte) :
  length p <= 1 -> fingerprint.validate fp (fingerprint.store p) = None.
Proof.
  intros Hlen. rewrite validate_store.
  destruct (Nat.ltb_spec 1 (length p)) as [Hlt|_]; [lia | reflexivity].
Qed.

Lemma validate_ignores_short_previous_witness :
  let fp := fst (fingerprint.New devnull (list_byte_of_string "abc")) in
  let p := list_byte_of_string "a" in
  p <> [] /\ string_of_list_byte p <> fingerprint.Hash fp
  /\ fingerprint.validate fp (fingerprint.store p) = None.
Proof.
  split; [|split].
  - discriminate.
  - vm_compute. discriminate.
  - apply (validate_ignores_short_previous
             (fst (fingerprint.New devnull (list_byte_of_string "abc")))
             (list_byte_of_string "a")).
    simpl. lia.
Defined.

(** C2, as stated, fails: a store holding the single byte "a" is non-empty
    and differs from the digest, yet validation succeeds. *)
Lemma validate_nonempty_mismatch_accepted :
  let fp := fst (fingerprint.New devnull []) in
  let p := list_byte_of_string "a" in
  ~ (fingerprint.validate fp (fingerprint.store p) <> None
     <-> (p <> [] /\ string_of_list_byte p <> fingerprint.Hash fp)).
Proof.
  intros fp p [_ Hback]. apply Hback; [split | ].
  - discriminate.
  - vm_compute. discriminate.
  - vm_compute. reflexivity.
Qed.

(** C2, amended.  For a fingerprint computed from any data and a store read
    without I/O error, validation fails exactly when the stored digest is
    longer than one byte and differs from the fingerprint's digest; the
    error is then a [ValidationError] whose message carries both digests.
    A store holding the fingerprint's own digest, or an empty one, is
    accepted, and [NewWithValidation] returns the fingerprint of [New] when
    validation succeeds and the zero fingerprint with that error otherwise. *)
Theorem validate_fails_iff_long_mismatch
    (val : list byte) (w : fingerprint.Writer) (p : list byte) :
  let fp := fst (fingerprint.New w val) in
  let prevHash := string_of_list_byte p in
  (fingerprint.validate fp (fingerprint.store p) <> None
     <-> (1 < length p /\ prevHash <> fingerprint.Hash fp))
  /\ (fingerprint.validate fp (fingerprint.store p) <> None ->
      exists err,
        fingerprint.validate fp (fingerprint.store p)
          = Some (fingerprint.ValidationError err)
        /\ fingerprint.Error (fingerprint.ValidationError err)
           = ("hash mismatch detected, expected " ++ prevHash
              ++ ", got " ++ fingerprint.Hash fp)%string)
  /\ (prevHash = fingerprint.Hash fp ->
      fingerprint.validate fp (fingerprint.store p) = None)
  /\ (p = [] -> fingerprint.validate fp (fingerprint.store p) = None)
  /\ fingerprint.NewWithValidation val w (fingerprint.store p)
     = match fingerprint.validate fp (fingerprint.store p) with
       | Some e => (fingerprint.zerofp, Some e)
       | None => (fp, None)
       end.
Proof.
  intros fp prevHash. subst fp prevHash.
  unfold fingerprint.NewWithValidation. rewrite New_eq. simpl fst.
  set (fp := {| fingerprint.out := Some w; fingerprint.hash := _ |}).
  rewrite validate_store. unfold fingerprint.Hash.
  destruct (Nat.ltb_spec 1 (length p)) as [Hlt|Hge];
    destruct (String.eqb_spec (string_of_list_byte p) (fingerprint.hash fp)) as [Heq|Hne];
    simpl; repeat split; try tauto; try congruence; try lia;
    try (intros [? ?]; congruence || lia).
  - intros _. eexists. split; reflexivity.
  - intros ->. simpl in Hlt. lia.
Qed.

Lemma validate_fails_iff_long_mismatch_witness :
  let val := list_byte_of_string "abc" in
  let p := list_byte_of_string
    "e3b0c44298fc1c149afbf4c8996fb92427ae41e4649b934ca495991b7852b855" in
  exists err,
    fingerprint.validate (fst (fingerprint.New devnull val)) (fingerprint.store p)
      = Some (fingerprint.ValidationError err)
    /\ fingerprint.Error (fingerprint.ValidationError err)
       = ("hash mismatch detected, expected "
          ++ "e3b0c44298fc1c149afbf4c8996fb92427ae41e4649b934ca495991b7852b855"
          ++ ", got "
          ++ "ba7816bf8f01cfea414140de5dae2223b00361a396177a9cb410ff61f20015ad")%string.
Proof.
  intros val p.
  destruct (validate_fails_iff_long_mismatch val devnull p) as (_ & Hmsg & _).
  apply Hmsg. vm_compute. discriminate.
Defined.


(** ** The timer watch configuration *)

(** C7.  [NewTimerWatch] keeps a positive interval as configured and
    replaces an unset (zero) or negative one by one second. *)
Theorem NewTimerWatch_interval (c : watch.TimerWatchConf) (e : Env) :
  ((watch.Interval c <= 0)%Z ->
   watch.Interval (watch.conf (fst (watch.NewTimerWatch c e))) = watch.Second)
  /\ ((0 < watch.Interval c)%Z ->
      watch.Interval (watch.conf (fst (watch.NewTimerWatch c e))) = watch.Interval c).
Proof.
  unfold watch.NewTimerWatch.
  destruct (watch.NewWatch e) as [w0 e0]. cbn [watch.conf].
  destruct (Z.ltb_spec (watch.Interval c) 1); cbn; split; intros; lia || reflexivity.
Qed.

Lemma NewTimerWatch_interval_witness :
  watch.Interval (watch.conf (fst (watch.NewTimerWatch {| watch.Interval := 0 |} heap0)))
    = 1000000000%Z
  /\ watch.Interval (watch.conf (fst (watch.NewTimerWatch {| watch.Interval := -7 |} heap0)))
    = 1000000000%Z
  /\ watch.Interval (watch.conf (fst (watch.NewTimerWatch {| watch.Interval := 250 |} heap0)))
    = 250%Z.
Proof.
  split; [|split].
  - apply (proj1 (NewTimerWatch_interval {| watch.Interval := 0 |} heap0)). simpl. lia.
  - apply (proj1 (NewTimerWatch_interval {| watch.Interval := -7 |} heap0)). simpl. lia.
  - apply (proj2 (NewTimerWatch_interval {| watch.Interval := 250 |} heap0)). simpl. lia.
Defined.

(** ** The Algorand adapter *)

(** C8.  What the code does where the claim expects [ResetConfig] to return
    nil and [IsConfigured] to return false: both panic. *)
Theorem Algorand_ResetConfig_IsConfigured_panic (a : algorand.Algorand) :
  algorand.ResetConfig a = Panicked "implement me!"
  /\ algorand.IsConfigured a = Panicked "implement me!"
  /\ algorand.ResetConfig a <> Returned None
  /\ algorand.IsConfigured a <> Returned false.
Proof. repeat split; discriminate. Qed.

(** ** Starting a watcher *)

Section StartFacts.
Import watch.

Lemma calls_fixed {S : Type} (f : S -> Outcome S) (s : S) (n : nat) :
  f s = Returned s -> calls n f s = Returned s.
Proof. intros Hf. induction n as [|n IH]; simpl; [reflexivity | now rewrite Hf]. Qed.

Context {T : Type} `{Watcher T}.

Lemma Start_done (w : T) (e : Env) :
  onces e !! once w = Some true -> Start w e = Returned (w, e).
Proof. intros Hd. unfold Start, Once_Do. now rewrite Hd. Qed.

Lemma Start_first (w : T) (e : Env) :
  onces e !! once w = Some false ->
  Start w e = Returned (fst (StartUnsafe w e),
                        set_once (once w) true (snd (StartUnsafe w e))).
Proof.
  intros Hd. unfold Start, Once_Do. rewrite Hd.
  now destruct (StartUnsafe w e).
Qed.

(** Any number of calls amounts to the first one, for a watcher whose
    start-up body leaves its once pointer in place. *)
Lemma StartN_first (n : nat) (w : T) (e : Env) :
  onces e !! once w = Some false ->
  once (fst (StartUnsafe w e)) = once w ->
  1 <= n ->
  StartN n w e = Start w e.
Proof.
  intros Hd Ho Hn. destruct n as [|n]; [lia |].
  unfold StartN. cbn [calls fst snd].
  rewrite (Start_first w e Hd).
  apply calls_fixed. cbn [fst snd].
  apply Start_done. rewrite Ho. cbn. apply lookup_insert_eq.
Qed.
End StartFacts.

(** *** Concurrent callers *)

Section StartRace.
Import watch.
Context {T : Type} `{Watcher T}.

Lemma at_pc_insert (x a b : Pc) (l : list Pc) (i : nat) :
  l !! i = Some a ->
  at_pc x (<[i := b]> l) + (if Pc_eq_dec a x then 1 else 0)
  = at_pc x l + (if Pc_eq_dec b x then 1 else 0).
Proof.
  unfold at_pc. revert i. induction l as [|c l IH]; intros [|i] Hi; cbn in Hi; try discriminate.
  - injection Hi as ->. cbn [list_insert count_occ insert].
    destruct (Pc_eq_dec a x), (Pc_eq_dec b x); lia.
  - specialize (IH i Hi). cbn [count_occ]. change (<[S i:=b]> (c :: l)) with (c :: <[i:=b]> l).
    cbn [count_occ]. destruct (Pc_eq_dec c x); lia.
Qed.

Lemma at_pc_replicate (x a : Pc) (n : nat) :
  at_pc x (replicate n a) = if Pc_eq_dec a x then n else 0.
Proof.
  unfold at_pc. induction n as [|n IH]; cbn [replicate count_occ].
  - now destruct (Pc_eq_dec a x).
  - rewrite IH. destruct (Pc_eq_dec a x); reflexivity.
Qed.

Lemma at_pc_total (l : list Pc) :
  at_pc AtLoad l + at_pc AtLock l + at_pc AtCheck l + at_pc AtBody l
  + at_pc AtStore l + at_pc AtUnlock l + at_pc Finished l = length l.
Proof.
  unfold at_pc. induction l as [|c l IH]; [reflexivity |].
  destruct c; cbn; lia.
Qed.

Lemma at_pc_pos (x : Pc) (l : list Pc) :
  1 <= at_pc x l -> exists i, l !! i = Some x.
Proof.
  unfold at_pc. induction l as [|c l IH]; cbn [count_occ]; [lia |].
  destruct (Pc_eq_dec c x) as [->|Hne]; intros Hpos.
  - now exists 0.
  - destruct (IH Hpos) as [i Hi]. now exists (S i).
Qed.

(** The watcher and heap the goroutines start from; the start-up body
    keeps the once pointer and does not touch the cell. *)
Variables (w0 : T) (e0 : Env).
Hypothesis cell_unset : onces e0 !! once w0 = Some false.
Hypothesis body_keeps_pointer : once (fst (StartUnsafe w0 e0)) = once w0.
Hypothesis body_keeps_cell : onces (snd (StartUnsafe w0 e0)) !! once w0 = Some false.

Lemma race_inv_spawn (n : nat) : race_inv w0 e0 (spawn n w0 e0).
Proof.
  unfold race_inv, spawn. cbn [pcs mutex who heap].
  rewrite !at_pc_replicate. cbn. split; [reflexivity |]. left. auto.
Qed.

Ltac count_moves Hi b :=
  pose proof (at_pc_insert AtCheck _ b _ _ Hi);
  pose proof (at_pc_insert AtBody _ b _ _ Hi);
  pose proof (at_pc_insert AtStore _ b _ _ Hi);
  pose proof (at_pc_insert AtUnlock _ b _ _ Hi);
  pose proof (at_pc_insert Finished _ b _ _ Hi);
  cbn in *.

Lemma race_inv_step (i : nat) (r r' : Race T) :
  race_inv w0 e0 r -> step i r = Some r' -> race_inv w0 e0 r'.
Proof.
  intros [Hmx Hph]. unfold step.
  destruct (pcs r !! i) as [[]|] eqn:Hi; try discriminate.
  - (* AtLoad *)
    intros Heq; injection Heq as <-. unfold race_inv, move. cbn [pcs mutex who heap].
    destruct Hph as [(Hw & He & ?)|[(Hw & He & ?)|(Hw & He & ?)]]; rewrite Hw, He;
      unfold once_done; rewrite ?body_keeps_pointer, ?cell_unset, ?body_keeps_cell;
      cbn [onces set_once]; rewrite ?lookup_insert_eq.
    + count_moves Hi AtLock. split; [lia |]. left. repeat split; auto; lia.
    + count_moves Hi AtLock. split; [lia |]. right; left. repeat split; auto; lia.
    + count_moves Hi Finished. split; [lia |]. right; right. repeat split; auto; lia.
  - (* AtLock *)
    destruct (mutex r) eqn:Hm; [discriminate |].
    intros Heq; injection Heq as <-. unfold race_inv, move. cbn [pcs mutex who heap].
    count_moves Hi AtCheck. split; [lia |].
    destruct Hph as [(Hw & He & ?)|[(Hw & He & ?)|(Hw & He & ?)]].
    + left. repeat split; auto; lia.
    + lia.
    + right; right. repeat split; auto; lia.
  - (* AtCheck *)
    intros Heq; injection Heq as <-. unfold race_inv, move. cbn [pcs mutex who heap].
    destruct Hph as [(Hw & He & ?)|[(Hw & He & ?)|(Hw & He & ?)]]; rewrite Hw, He;
      unfold once_done; rewrite ?body_keeps_pointer, ?cell_unset, ?body_keeps_cell;
      cbn [onces set_once]; rewrite ?lookup_insert_eq.
    + count_moves Hi AtBody. split; [lia |]. left. repeat split; auto; lia.
    + count_moves Hi AtBody. destruct (mutex r); lia.
    + count_moves Hi AtUnlock. split; [lia |]. right; right. repeat split; auto; lia.
  - (* AtBody *)
    destruct Hph as [(Hw & He & ?)|[(Hw & He & ?)|(Hw & He & ?)]]; rewrite Hw, He.
    + destruct (StartUnsafe w0 e0) as [w1 e1] eqn:Hbody.
      intros Heq; injection Heq as <-. unfold race_inv.
      rewrite Hbody. cbn [pcs mutex who heap fst snd].
      count_moves Hi AtStore. split; [lia |]. right; left.
      destruct (mutex r); repeat split; auto; lia.
    + count_moves Hi AtStore. destruct (mutex r); lia.
    + count_moves Hi AtStore. lia.
  - (* AtStore *)
    intros Heq; injection Heq as <-. unfold race_inv. cbn [pcs mutex who heap].
    destruct Hph as [(Hw & He & ?)|[(Hw & He & ?)|(Hw & He & ?)]]; rewrite ?Hw, ?He.
    + count_moves Hi AtUnlock. lia.
    + count_moves Hi AtUnlock. split; [lia |]. right; right.
      rewrite body_keeps_pointer. destruct (mutex r); repeat split; auto; lia.
    + count_moves Hi AtUnlock. lia.
  - (* AtUnlock *)
    intros Heq; injection Heq as <-. unfold race_inv, move. cbn [pcs mutex who heap].
    count_moves Hi Finished.
    destruct Hph as [(Hw & He & ?)|[(Hw & He & ?)|(Hw & He & ?)]].
    + lia.
    + destruct (mutex r); lia.
    + split; [destruct (mutex r); lia |]. right; right. repeat split; auto; lia.
Qed.

Lemma step_length (i : nat) (r r' : Race T) :
  step i r = Some r' -> length (pcs r') = length (pcs r).
Proof.
  unfold step. destruct (pcs r !! i) as [[]|]; try discriminate;
    try (intros Heq; injection Heq as <-; cbn; apply length_insert).
  - destruct (mutex r); [discriminate |].
    intros Heq; injection Heq as <-; cbn; apply length_insert.
  - destruct (StartUnsafe (who r) (heap r)).
    intros Heq; injection Heq as <-; cbn; apply length_insert.
Qed.

Lemma race_inv_interleave (sched : list nat) (r : Race T) :
  race_inv w0 e0 r ->
  race_inv w0 e0 (interleave sched r)
  /\ length (pcs (interleave sched r)) = length (pcs r).
Proof.
  revert r. induction sched as [|i sched IH]; intros r Hinv; cbn [interleave].
  - auto.
  - destruct (step i r) as [r'|] eqn:Hst; [| now apply IH].
    destruct (IH r' (race_inv_step i r r' Hinv Hst)) as [Hinv' Hlen].
    split; [exact Hinv' |]. rewrite Hlen. exact (step_length i r r' Hst).
Qed.

(** Whatever the interleaving, as soon as one goroutine has returned the
    body has run exactly once and the flag is set. *)
Lemma race_returned (n : nat) (sched : list nat) :
  1 <= returned (interleave sched (spawn n w0 e0)) ->
  who (interleave sched (spawn n w0 e0)) = fst (StartUnsafe w0 e0)
  /\ heap (interleave sched (spawn n w0 e0))
     = set_once (once w0) true (snd (StartUnsafe w0 e0)).
Proof.
  intros Hret. unfold returned in Hret.
  destruct (race_inv_interleave sched _ (race_inv_spawn n)) as [[_ Hph] _].
  destruct Hph as [(_ & _ & _ & _ & H0)|[(_ & _ & _ & H0)|(Hw & He & _)]]; [lia | lia | auto].
Qed.

(** No interleaving gets stuck: as long as a goroutine has not returned,
    one of them can move. *)
Lemma race_progress (n : nat) (sched : list nat) :
  let r := interleave sched (spawn n w0 e0) in
  all_finished r \/ exists i r', step i r = Some r'.
Proof.
  intros r. destruct (race_inv_interleave sched _ (race_inv_spawn n)) as [[Hmx _] _].
  fold r in Hmx. pose proof (at_pc_total (pcs r)) as Htot. unfold all_finished, returned.
  destruct (Nat.eq_dec (at_pc Finished (pcs r)) (length (pcs r))) as [|Hne]; [now left | right].
  assert (Hsome : 1 <= at_pc AtLoad (pcs r) \/ 1 <= at_pc AtCheck (pcs r)
                  \/ 1 <= at_pc AtBody (pcs r) \/ 1 <= at_pc AtStore (pcs r)
                  \/ 1 <= at_pc AtUnlock (pcs r)
                  \/ (1 <= at_pc AtLock (pcs r) /\ mutex r = false)).
  { destruct (mutex r); lia. }
  unfold step.
  destruct Hsome as [Hp|[Hp|[Hp|[Hp|[Hp|[Hp Hm]]]]]];
    apply at_pc_pos in Hp as [i Hi]; exists i; rewrite Hi; rewrite ?Hm; eauto.
  destruct (StartUnsafe (who r) (heap r)); eauto.
Qed.
End StartRace.

(** C3.  On a watcher whose once cell is still unset, [n >= 1] calls of
    [Start] run [StartUnsafe] exactly once, whether they are made one after
    the other or by [n] goroutines whose steps through [sync.Once.Do] are
    interleaved in any way: as soon as one call has returned, the trace
    has gained the events of a single run (for a [TimerWatch], a single
    timer goroutine) and the watcher is Running, and any further call
    changes nothing. *)
Theorem Start_runs_StartUnsafe_once (n : nat) :
  1 <= n ->
  (forall (w : watch.Watch) (e : Env),
      onces e !! watch.startOnce w = Some false ->
      exists (w' : watch.Watch) (e' : Env),
        watch.StartN n w e = Returned (w', e')
        /\ (forall sched : list nat,
               1 <= watch.returned (watch.interleave sched (watch.spawn n w e)) ->
               watch.who (watch.interleave sched (watch.spawn n w e)) = w'
               /\ watch.heap (watch.interleave sched (watch.spawn n w e)) = e')
        /\ trace e' = trace e ++ [EvRun "Watch.StartUnsafe"]
        /\ watch.Running w' = true
        /\ onces e' !! watch.startOnce w' = Some true
        /\ watch.Start w' e' = Returned (w', e'))
  /\ (forall (w : watch.TimerWatch) (e : Env),
      onces e !! watch.startOnce (watch.base w) = Some false ->
      exists (w' : watch.TimerWatch) (e' : Env),
        watch.StartN n w e = Returned (w', e')
        /\ (forall sched : list nat,
               1 <= watch.returned (watch.interleave sched (watch.spawn n w e)) ->
               watch.who (watch.interleave sched (watch.spawn n w e)) = w'
               /\ watch.heap (watch.interleave sched (watch.spawn n w e)) = e')
        /\ trace e' = trace e ++ [EvRun "TimerWatch.StartUnsafe";
                                  EvRun "Watch.StartUnsafe"; EvGo "timerLoop"]
        /\ watch.Running (watch.base w') = true
        /\ onces e' !! watch.startOnce (watch.base w') = Some true
        /\ watch.Start w' e' = Returned (w', e')).
Proof.
  intros Hn. split; intros w e Hd.
  - rewrite (@StartN_first _ watch.Watch_Watcher n w e Hd eq_refl Hn),
      (@Start_first _ watch.Watch_Watcher w e Hd).
    eexists _, _. split; [reflexivity |].
    split; [intros sched Hfin;
            exact (@race_returned _ watch.Watch_Watcher w e Hd eq_refl Hd n sched Hfin) |].
    cbn.
    assert (Hdone : <[watch.startOnce w := true]> (onces e) !! watch.startOnce w = Some true)
      by apply lookup_insert_eq.
    repeat split; try assumption.
    apply (@Start_done _ watch.Watch_Watcher). exact Hdone.
  - rewrite (@StartN_first _ watch.TimerWatch_Watcher n w e Hd eq_refl Hn),
      (@Start_first _ watch.TimerWatch_Watcher w e Hd).
    eexists _, _. split; [reflexivity |].
    split; [intros sched Hfin;
            exact (@race_returned _ watch.TimerWatch_Watcher w e Hd eq_refl Hd n sched Hfin) |].
    cbn.
    assert (Hdone : <[watch.startOnce (watch.base w) := true]> (onces e)
                      !! watch.startOnce (watch.base w) = Some true)
      by apply lookup_insert_eq.
    repeat split; try assumption.
    + now rewrite <- !app_assoc.
    + apply (@Start_done _ watch.TimerWatch_Watcher). exact Hdone.
Qed.

Lemma Start_runs_StartUnsafe_once_witness :
  let s := watch.NewTimerWatch {| watch.Interval := 0 |} heap0 in
  let r := watch.interleave round_robin (watch.spawn 3 (fst s) (snd s)) in
  watch.all_finished r
  /\ trace (watch.heap r)
     = trace (snd s) ++ [EvRun "TimerWatch.StartUnsafe";
                         EvRun "Watch.StartUnsafe"; EvGo "timerLoop"]
  /\ watch.Running (watch.base (watch.who r)) = true
  /\ watch.StartN 3 (fst s) (snd s) = Returned (watch.who r, watch.heap r).
Proof.
  intros s r.
  assert (H3 : 1 <= 3) by lia.
  assert (Hfin : watch.all_finished r) by (vm_compute; reflexivity).
  assert (Hret : 1 <= watch.returned r) by (vm_compute; lia).
  destruct (proj2 (Start_runs_StartUnsafe_once 3 H3) (fst s) (snd s))
    as (w' & e' & Hseq & Hrace & Htr & Hrun & _).
  - vm_compute. reflexivity.
  - destruct (Hrace round_robin Hret) as [Hw He].
    fold r in Hw, He. rewrite Hw, He.
    split; [exact Hfin |]. split; [exact Htr |]. split; [exact Hrun | exact Hseq].
Defined.

(** ** Stopping a watcher *)

Section StopFacts.
Import watch.

Lemma send_chan_frame (k : nat) (m : Msg) (e e' : Env) :
  send_chan k m e = Returned e' \/ send_chan k m e = Blocked e' ->
  onces e' = onces e /\ sigs e' = sigs e.
Proof.
  unfold send_chan.
  destruct (chans e !! k) as [c|]; [destruct (chan.send c m) |];
    intros [Hr|Hr]; inversion Hr; subst; split; reflexivity.
Qed.

Lemma emit_to_frame (hs : list nat) (m : Msg) (e e' : Env) :
  emit_to hs m e = Returned e' \/ emit_to hs m e = Blocked e' ->
  onces e' = onces e /\ sigs e' = sigs e.
Proof.
  revert e. induction hs as [|h hs IH]; intros e; cbn [emit_to].
  - intros [Hr|Hr]; inversion Hr; subst; split; reflexivity.
  - destruct (send_chan h m e) as [e1|e1|msg] eqn:Hs.
    + intros Hr. destruct (IH e1 Hr) as [-> ->].
      apply (send_chan_frame h m). now left.
    + intros [Hr|Hr]; inversion Hr; subst.
      apply (send_chan_frame h m). now right.
    + intros [Hr|Hr]; inversion Hr.
  Qed.

Lemma inv_NewWatch (e : Env) : inv (fst (NewWatch e)) (snd (NewWatch e)).
Proof.
  exists false, (chan.make 1). cbn.
  rewrite !lookup_insert_eq. repeat split; auto.
Qed.

Lemma inv_frame (w : Watch) (e e' : Env) :
  inv w e -> frame w e e' -> inv w e'.
Proof.
  intros (d & c & Ho & Hs & Hrest) [Ho' Hs'].
  exists d, c. rewrite Ho', Hs'. auto.
Qed.

Lemma inv_Start (w w' : Watch) (e e' : Env) :
  inv w e -> Start w e = Returned (w', e') -> inv w' e'.
Proof.
  intros (d & c & Ho & Hs & Hcap & Hq & Hcl & Hfresh & Hrun & Hlen).
  unfold Start, Once_Do. cbn [once Watch_Watcher StartUnsafe].
  unfold Watch_once. rewrite Ho. destruct d.
  - intros Hr; inversion Hr; subst. exists true, c. auto 10.
  - cbn. intros Hr; inversion Hr; subst; clear Hr.
    destruct (Hfresh eq_refl) as [_ Hbuf].
    exists true, c. cbn. rewrite lookup_insert_eq.
    repeat split; auto; discriminate.
Qed.

(** From a state of the invariant, [Stop] does not block: a running
    watcher has an empty stop channel. *)
Lemma Stop_running (w : Watch) (e : Env) :
  inv w e -> Running w = true ->
  exists c : chan.t bool,
    sigs e !! StopKey w = Some c
    /\ Watch_Stop w e
       = Returned (set_Running false w,
                   emit_event (EvSignal (StopKey w) true)
                     (set_sig (StopKey w)
                        {| chan.buf := [true]; chan.cap := 1;
                           chan.recvq := 0; chan.closed := false |}
                        (call (StopFn w) e))).
Proof.
  intros (d & c & Ho & Hs & Hcap & Hq & Hcl & Hfresh & Hrun & Hlen) Hr.
  exists c. split; [exact Hs |].
  unfold Watch_Stop. rewrite Hr. cbn.
  unfold send_sig. cbn. rewrite Hs.
  unfold chan.send. rewrite Hcl, Hq, (Hrun Hr), Hcap. reflexivity.
Qed.

(** Outside the invariant (a watcher set Running again behind the once
    cell, its stop channel still full), [Stop] parks on the send, the
    teardown function already called. *)
Lemma Stop_parks_on_full_channel (w : Watch) (e : Env) (c : chan.t bool) :
  Running w = true ->
  sigs e !! StopKey w = Some c ->
  chan.closed c = false -> chan.recvq c = 0 -> chan.cap c <= length (chan.buf c) ->
  Watch_Stop w e = Blocked (set_Running false w, call (StopFn w) e).
Proof.
  intros Hr Hs Hcl Hq Hfull. unfold Watch_Stop. rewrite Hr. cbn.
  unfold send_sig. cbn. rewrite Hs. unfold chan.send. rewrite Hcl, Hq.
  destruct (Nat.ltb_spec (length (chan.buf c)) (chan.cap c)); [lia | reflexivity].
Qed.

Lemma inv_Stop (w w' : Watch) (e e' : Env) :
  inv w e -> Watch_Stop w e = Returned (w', e') -> inv w' e'.
Proof.
  intros Hinv. destruct (Running w) eqn:Hr.
  - destruct (Stop_running w e Hinv Hr) as (c & Hs & ->).
    intros Heq; inversion Heq; subst; clear Heq.
    destruct Hinv as (d & c' & Ho & Hs' & Hcap & Hq & Hcl & Hfresh & Hrun & Hlen).
    exists d, {| chan.buf := [true]; chan.cap := 1;
                 chan.recvq := 0; chan.closed := false |}.
    cbn. rewrite lookup_insert_eq.
    repeat split; auto; try discriminate.
    all: intros; subst; destruct (Hfresh eq_refl); congruence.
  - unfold Watch_Stop. rewrite Hr. cbn.
    intros Heq; inversion Heq; subst. exact Hinv.
Qed.

Lemma inv_stop_taken (w : Watch) (e e' : Env) (b : bool) :
  inv w e -> recv_sig (StopKey w) e = Some (b, e') -> inv w e'.
Proof.
  intros (d & c & Ho & Hs & Hcap & Hq & Hcl & Hfresh & Hrun & Hlen).
  unfold recv_sig, chan.recv. rewrite Hs, Hcl.
  destruct (chan.buf c) as [|v rest] eqn:Hbuf; [discriminate |].
  intros Heq; inversion Heq; subst; clear Heq.
  exists d, {| chan.buf := rest; chan.cap := chan.cap c;
               chan.recvq := chan.recvq c; chan.closed := false |}.
  cbn. rewrite lookup_insert_eq.
  cbn in Hlen. assert (rest = []) as -> by (destruct rest; [reflexivity | cbn in Hlen; lia]).
  repeat split; auto.
  all: intros; subst;
    try (destruct (Hfresh eq_refl); congruence);
    try (specialize (Hrun ltac:(assumption)); discriminate).
Qed.

Lemma reachable_inv (w : Watch) (e : Env) : reachable w e -> inv w e.
Proof.
  induction 1 as [e | w w' e e' _ IH Hs | w w' e e' _ IH Hs | w e h _ IH
                  | w e e' m _ IH Hem | w e e' b _ IH Hrv | w e e' _ IH Hf].
  - apply inv_NewWatch.
  - exact (inv_Start w w' e e' IH Hs).
  - exact (inv_Stop w w' e e' IH Hs).
  - exact IH.
  - apply (inv_frame w e e' IH).
    destruct (emit_to_frame (listeners w) m e e' Hem) as [Ho Hs].
    unfold frame. now rewrite Ho, Hs.
  - exact (inv_stop_taken w e e' b IH Hrv).
  - exact (inv_frame w e e' IH Hf).
Qed.

(** After [Stop] on a running watcher the stop signal waits in the channel
    for the timer loop. *)
Lemma Stop_signals (w w' : Watch) (e e' : Env) :
  reachable w e -> Running w = true ->
  Watch_Stop w e = Returned (w', e') -> sig_ready (StopKey w') e' = true.
Proof.
  intros Hreach Hr. apply reachable_inv in Hreach.
  destruct (Stop_running w e Hreach Hr) as (c & _ & ->).
  intros Heq; injection Heq as <- <-.
  unfold sig_ready. cbn. now rewrite lookup_insert_eq.
Qed.

(** The [Watch] embedded in a [TimerWatch] stays within these states when
    the timer watch is started: its [StartUnsafe] adds the timer goroutine
    to what [Watch.StartUnsafe] does. *)
Lemma TimerWatch_Start_reachable (w w' : TimerWatch) (e e' : Env) :
  reachable (base w) e -> Start w e = Returned (w', e') -> reachable (base w') e'.
Proof.
  intros Hreach. unfold Start, Once_Do. cbn [once TimerWatch_Watcher StartUnsafe].
  unfold Watch_once.
  destruct (onces e !! startOnce (base w)) as [[|]|] eqn:Ho; try discriminate.
  - intros Heq; injection Heq as <- <-. exact Hreach.
  - cbn. intros Heq; injection Heq as <- <-. cbn [base].
    eapply reach_frame.
    + eapply reach_Start; [exact Hreach |].
      unfold Start, Once_Do. cbn [once Watch_Watcher StartUnsafe].
      unfold Watch_once. rewrite Ho. reflexivity.
    + split; reflexivity.
Qed.
End StopFacts.




(** ** Emitting to the subscribers *)

Section EmitFacts.
Import watch.

Lemma Subscribe_all (w : Watch) (targets : list nat) :
  listeners (foldl Watch_Subscribe w targets) = listeners w ++ targets.
Proof.
  revert w. induction targets as [|t ts IH]; intros w; cbn [foldl].
  - now rewrite app_nil_r.
  - rewrite IH. cbn. now rewrite <- app_assoc.
Qed.

(** A send on a channel with room completes and uses up one place. *)
Lemma send_chan_room (k : nat) (m : Msg) (e : Env) :
  1 <= room e k ->
  exists e',
    send_chan k m e = Returned e'
    /\ trace e' = trace e ++ [EvSend k m]
    /\ room e' k = room e k - 1
    /\ forall k', k' <> k -> room e' k' = room e k'.
Proof.
  unfold room, send_chan. destruct (chans e !! k) as [c|] eqn:Hc; [| lia].
  unfold chan.room, chan.send.
  destruct (chan.closed c) eqn:Hcl; [lia |].
  destruct (chan.recvq c) as [|q] eqn:Hq.
  - intros Hroom. destruct (Nat.ltb_spec (length (chan.buf c)) (chan.cap c)); [| lia].
    eexists. split; [reflexivity |]. cbn. rewrite lookup_insert_eq. cbn.
    rewrite length_app. cbn. repeat split; [lia |].
    intros k' Hne. now rewrite lookup_insert_ne.
  - intros _. eexists. split; [reflexivity |]. cbn. rewrite lookup_insert_eq. cbn.
    repeat split; [lia |].
    intros k' Hne. now rewrite lookup_insert_ne.
Qed.

(** A send on an open channel without room parks the sender. *)
Lemma send_chan_full (k : nat) (m : Msg) (e : Env) :
  room e k = 0 ->
  send_chan k m e = Blocked e
  \/ exists msg, send_chan k m e = Panicked msg.
Proof.
  unfold room, send_chan. destruct (chans e !! k) as [c|] eqn:Hc; [| now left].
  unfold chan.room, chan.send.
  destruct (chan.closed c); [right; eauto |].
  destruct (chan.recvq c); [| lia].
  intros Hroom. destruct (Nat.ltb_spec (length (chan.buf c)) (chan.cap c)); [lia | now left].
Qed.

Lemma emit_to_all (hs : list nat) (m : Msg) (e : Env) :
  (forall c, count_occ Nat.eq_dec hs c <= room e c) ->
  exists e',
    emit_to hs m e = Returned e'
    /\ trace e' = trace e ++ map (fun c => EvSend c m) hs
    /\ forall c, room e' c = room e c - count_occ Nat.eq_dec hs c.
Proof.
  revert e. induction hs as [|h hs IH]; intros e Hroom.
  - exists e. cbn. rewrite app_nil_r. repeat split. intros c. lia.
  - assert (Hh : 1 <= room e h).
    { specialize (Hroom h). rewrite count_occ_cons_eq in Hroom by reflexivity. lia. }
    destruct (send_chan_room h m e Hh) as (e1 & Hs & Ht & Hrh & Hro).
    destruct (IH e1) as (e' & Hem & Ht' & Hr').
    { intros c. specialize (Hroom c). destruct (Nat.eq_dec h c) as [->|Hne].
      - rewrite count_occ_cons_eq in Hroom by reflexivity. lia.
      - rewrite count_occ_cons_neq in Hroom by assumption.
        rewrite Hro by congruence. exact Hroom. }
    exists e'. cbn [emit_to]. rewrite Hs. split; [exact Hem |]. split.
    + rewrite Ht', Ht. cbn. now rewrite <- app_assoc.
    + intros c. rewrite Hr'. destruct (Nat.eq_dec h c) as [->|Hne].
      * rewrite count_occ_cons_eq by reflexivity. lia.
      * rewrite count_occ_cons_neq by assumption. rewrite Hro by congruence. lia.
Qed.

(** Whatever the heap, the sends [Emit] completes follow the listeners in
    order: all of them when it returns, those before the first target
    without room when it parks there. *)
Lemma emit_to_prefix (hs : list nat) (m : Msg) (e : Env) :
  (exists e', emit_to hs m e = Returned e'
              /\ trace e' = trace e ++ map (fun c => EvSend c m) hs)
  \/ (exists e' done h rest,
         emit_to hs m e = Blocked e'
         /\ hs = done ++ h :: rest
         /\ trace e' = trace e ++ map (fun c => EvSend c m) done
         /\ room e' h = 0)
  \/ (exists msg, emit_to hs m e = Panicked msg).
Proof.
  revert e. induction hs as [|h hs IH]; intros e.
  - left. exists e. cbn. now rewrite app_nil_r.
  - cbn [emit_to]. destruct (room e h) as [|r] eqn:Hr.
    + destruct (send_chan_full h m e Hr) as [Hs|[msg Hs]]; rewrite Hs.
      * right; left. exists e, [], h, hs. cbn. rewrite app_nil_r. auto.
      * right; right. eauto.
    + destruct (send_chan_room h m e) as (e1 & Hs & Ht & _); [lia |].
      rewrite Hs.
      destruct (IH e1) as [(e' & He & Ht') | [(e' & done & h' & rest & He & Hhs & Ht' & Hr') | (msg & He)]].
      * left. exists e'. split; [exact He |]. rewrite Ht', Ht. cbn. now rewrite <- app_assoc.
      * right; left. exists e', (h :: done), h', rest.
        split; [exact He |]. split; [now rewrite Hhs |]. split; [| exact Hr'].
        rewrite Ht', Ht. cbn. now rewrite <- app_assoc.
      * right; right. eauto.
Qed.
End EmitFacts.

(** C5.  Subscribing appends to the listeners, so they stand in
    subscription order, and [Emit] sends the sample to them in that order,
    one blocking send after the other.  Whatever the heap, the sends it has
    completed are those to the listeners before the one it is parked on;
    every target having room for what is addressed to it, [Emit] returns
    with the sample sent to every target.  [Emit] has no result, hence no
    error to return. *)
Theorem Emit_delivers_in_subscription_order
    (w0 : watch.Watch) (targets : list nat) (m : Msg) (e : Env) :
  let w := foldl watch.Watch_Subscribe w0 targets in
  watch.listeners w = watch.listeners w0 ++ targets
  /\ ((exists e' : Env,
          watch.Watch_Emit w m e = Returned e'
          /\ trace e' = trace e ++ map (fun c => EvSend c m) (watch.listeners w))
      \/ (exists (e' : Env) (served : list nat) (h : nat) (rest : list nat),
             watch.Watch_Emit w m e = Blocked e'
             /\ watch.listeners w = served ++ h :: rest
             /\ trace e' = trace e ++ map (fun c => EvSend c m) served
             /\ room e' h = 0)
      \/ (exists msg : string, watch.Watch_Emit w m e = Panicked msg))
  /\ ((forall c, count_occ Nat.eq_dec (watch.listeners w) c <= room e c) ->
      exists e' : Env,
        watch.Watch_Emit w m e = Returned e'
        /\ trace e' = trace e ++ map (fun c => EvSend c m) (watch.listeners w0 ++ targets)
        /\ (forall c, In c (watch.listeners w0 ++ targets) -> In (EvSend c m) (trace e'))
        /\ (forall c, room e' c
                      = room e c - count_occ Nat.eq_dec (watch.listeners w) c)).
Proof.
  intros w. subst w.
  split; [apply Subscribe_all |]. split; [apply emit_to_prefix |].
  intros Hroom.
  destruct (emit_to_all _ m e Hroom) as (e' & Hem & Ht & Hr).
  rewrite Subscribe_all in Ht.
  exists e'. split; [exact Hem |]. split; [exact Ht |]. split; [| exact Hr].
  intros c Hc. rewrite Ht. apply in_or_app. right.
  apply in_map_iff. exists c. split; [reflexivity | exact Hc].
Qed.

Lemma Emit_delivers_in_subscription_order_witness :
  let w0 := fst (watch.NewWatch heap2) in
  exists e' : Env,
    watch.Watch_Emit (foldl watch.Watch_Subscribe w0 [1; 2]) (MInt 0) heap2 = Returned e'
    /\ trace e' = [EvSend 1 (MInt 0); EvSend 2 (MInt 0)].
Proof.
  intros w0.
  destruct (Emit_delivers_in_subscription_order w0 [1; 2] (MInt 0) heap2)
    as (_ & _ & Hall).
  destruct Hall as (e' & Hem & Ht & _).
  - intros [|[|[|c]]]; vm_compute; lia.
  - exists e'. split; [exact Hem | exact Ht].
Defined.

(** ** The timer loop and the stop signal *)

Section TimerLoopFacts.
Import watch.

Lemma recv_sig_ready (k : nat) (e : Env) :
  sig_ready k e = true ->
  exists b e', recv_sig k e = Some (b, e') /\ trace e' = trace e /\ chans e' = chans e.
Proof.
  unfold sig_ready, recv_sig, chan.can_recv, chan.recv.
  destruct (sigs e !! k) as [c|]; [| discriminate].
  destruct (chan.buf c) as [|v rest].
  - intros ->. eexists _, _. split; [reflexivity |]. split; reflexivity.
  - intros _. eexists _, _. split; [reflexivity |]. split; reflexivity.
Qed.

Lemma timerLoop_pass_stop_case (w : TimerWatch) (fired : bool) (pick : nat) (e : Env) :
  sig_ready (StopKey (base w)) e = true ->
  select (ready_cases fired true) pick = Some CaseStop ->
  exists e', timerLoop_pass w fired pick e = Exited e' /\ trace e' = trace e.
Proof.
  intros Hready Hsel. unfold timerLoop_pass. rewrite Hready, Hsel.
  destruct (recv_sig_ready _ e Hready) as (b & e' & -> & Ht & _).
  exists e'. split; [reflexivity | exact Ht].
Qed.

Lemma timerLoop_exited (w : TimerWatch) (sched sched' : list (bool * nat)) (e e' : Env) :
  timerLoop w sched e = Exited e' -> timerLoop w (sched ++ sched') e = Exited e'.
Proof.
  revert e. induction sched as [|[fired pick] sched IH]; intros e; cbn [timerLoop app].
  - discriminate.
  - destruct (timerLoop_pass w fired pick e); auto.
Qed.
End TimerLoopFacts.

(** A stopped watcher whose timer has fired: drawn first, the timer case
    sends the sample to subscriber 1 although the stop signal is waiting. *)
Lemma stopped_timer_emits :
  exists (w : watch.TimerWatch) (e e' : Env),
    stopped_timer = Some (w, e)
    /\ sig_ready (watch.StopKey (watch.base w)) e = true
    /\ watch.timerLoop_pass w true 0 e = watch.Looping e'
    /\ trace e' = trace e ++ [EvSend 1 (MInt 0)].
Proof.
  eexists _, _, _. split; [vm_compute; reflexivity |].
  split; [vm_compute; reflexivity |].
  split; vm_compute; reflexivity.
Qed.

(** C6, as stated, fails: with the stop signal available and the interval
    elapsed, the scheduler may draw the timer case, and the loop emits
    instead of leaving. *)
Lemma timerLoop_stop_has_no_priority :
  ~ (forall (w : watch.TimerWatch) (e : Env) (pick : nat),
        sig_ready (watch.StopKey (watch.base w)) e = true ->
        exists e' : Env,
          watch.timerLoop_pass w true pick e = watch.Exited e'
          /\ trace e' = trace e).
Proof.
  intros Hclaim.
  destruct stopped_timer_emits as (w & e & e1 & _ & Hready & Hpass & _).
  destruct (Hclaim w e 0 Hready) as (e' & Hexit & _).
  rewrite Hpass in Hexit. discriminate.
Qed.

(** C6, amended.  With the stop signal available: a pass whose timer has
    not fired leaves the loop without emitting; a pass whose timer has
    fired leaves without emitting when the scheduler draws the stop case,
    and runs [Emit(0)] when it draws the timer case.  In that case, when
    [Emit] returns, the sample 0 has been sent once to every listener, in
    order, and the loop iterates again with the stop signal still
    available, so that a next pass whose timer has not fired leaves; when
    [Emit] parks on a listener without room, the loop is stalled there,
    the listeners before that one served and the stop signal still
    available; when [Emit] panics (a closed listener), the goroutine
    crashes.  Once a pass has taken the stop case the loop is over:
    whatever the schedule holds next, nothing more is emitted. *)
Theorem timerLoop_stop_observed (w : watch.TimerWatch) (e : Env) :
  sig_ready (watch.StopKey (watch.base w)) e = true ->
  (forall pick : nat,
      exists e' : Env,
        watch.timerLoop_pass w false pick e = watch.Exited e' /\ trace e' = trace e)
  /\ (forall pick : nat,
         pick mod 2 = 1 ->
         exists e' : Env,
           watch.timerLoop_pass w true pick e = watch.Exited e' /\ trace e' = trace e)
  /\ (forall pick : nat,
         pick mod 2 = 0 ->
         watch.timerLoop_pass w true pick e
         = match watch.TimerWatch_Emit w (MInt 0) e with
           | Returned e' => watch.Looping e'
           | Blocked e' => watch.Stalled e'
           | Panicked msg => watch.Crashed msg
           end)
  /\ (forall pick : nat,
         pick mod 2 = 0 ->
         (exists e' : Env,
             watch.timerLoop_pass w true pick e = watch.Looping e'
             /\ trace e' = trace e ++ map (fun c => EvSend c (MInt 0))
                                          (watch.listeners (watch.base w))
             /\ sig_ready (watch.StopKey (watch.base w)) e' = true
             /\ forall pick' : nat,
                  exists e'' : Env,
                    watch.timerLoop_pass w false pick' e' = watch.Exited e''
                    /\ trace e'' = trace e')
         \/ (exists (e' : Env) (served : list nat) (h : nat) (rest : list nat),
                watch.timerLoop_pass w true pick e = watch.Stalled e'
                /\ watch.listeners (watch.base w) = served ++ h :: rest
                /\ trace e' = trace e ++ map (fun c => EvSend c (MInt 0)) served
                /\ room e' h = 0
                /\ sig_ready (watch.StopKey (watch.base w)) e' = true)
         \/ (exists msg : string,
                watch.timerLoop_pass w true pick e = watch.Crashed msg
                /\ watch.TimerWatch_Emit w (MInt 0) e = Panicked msg))
  /\ (forall (sched sched' : list (bool * nat)) (e0 e' : Env),
         watch.timerLoop w sched e0 = watch.Exited e' ->
         watch.timerLoop w (sched ++ sched') e0 = watch.Exited e'
         /\ watch.timerLoop w sched e0 = watch.timerLoop w (sched ++ sched') e0).
Proof.
  intros Hready.
  assert (Hidle : forall e1 : Env,
             sig_ready (watch.StopKey (watch.base w)) e1 = true ->
             forall pick : nat,
               exists e' : Env,
                 watch.timerLoop_pass w false pick e1 = watch.Exited e'
                 /\ trace e' = trace e1).
  { intros e1 H1 pick. apply (timerLoop_pass_stop_case w false pick e1 H1).
    unfold select. cbn [watch.ready_cases app length]. now rewrite Nat.mod_1_r. }
  assert (Hkept : forall e1 : Env,
             sigs e1 = sigs e -> sig_ready (watch.StopKey (watch.base w)) e1 = true).
  { intros e1 Hs. unfold sig_ready in *. now rewrite Hs. }
  assert (Htimer : forall pick : nat,
             pick mod 2 = 0 ->
             watch.timerLoop_pass w true pick e
             = match watch.TimerWatch_Emit w (MInt 0) e with
               | Returned e' => watch.Looping e'
               | Blocked e' => watch.Stalled e'
               | Panicked msg => watch.Crashed msg
               end).
  { intros pick Heven. unfold watch.timerLoop_pass, select.
    rewrite Hready. cbn [watch.ready_cases app length]. now rewrite Heven. }
  split; [exact (Hidle e Hready) |]. split; [| split; [exact Htimer | split]].
  - intros pick Hodd. apply (timerLoop_pass_stop_case w true pick e Hready).
    unfold select. cbn [watch.ready_cases app length]. now rewrite Hodd.
  - intros pick Heven. rewrite (Htimer pick Heven).
    unfold watch.TimerWatch_Emit, watch.Watch_Emit.
    destruct (emit_to_prefix (watch.listeners (watch.base w)) (MInt 0) e)
      as [(e' & Hem & Htr) | [(e' & served & h & rest & Hem & Hls & Htr & Hroom)
                             | (msg & Hem)]].
    + left. exists e'. rewrite Hem. split; [reflexivity |]. split; [exact Htr |].
      assert (Hs : sigs e' = sigs e)
        by (apply (emit_to_frame (watch.listeners (watch.base w)) (MInt 0)); now left).
      split; [exact (Hkept e' Hs) | exact (Hidle e' (Hkept e' Hs))].
    + right; left. exists e', served, h, rest. rewrite Hem.
      split; [reflexivity |]. split; [exact Hls |]. split; [exact Htr |].
      split; [exact Hroom |].
      apply Hkept.
      apply (emit_to_frame (watch.listeners (watch.base w)) (MInt 0)); now right.
    + right; right. exists msg. rewrite Hem. split; reflexivity.
  - intros sched sched' e0 e' Hex.
    rewrite (timerLoop_exited w sched sched' e0 e' Hex). split; [reflexivity | exact Hex].
Qed.

Lemma timerLoop_stop_observed_witness :
  let w := fst stopped_state in
  let e := snd stopped_state in
  sig_ready (watch.StopKey (watch.base w)) e = true
  /\ (exists e' : Env,
         watch.timerLoop_pass w true 1 e = watch.Exited e' /\ trace e' = trace e)
  /\ (exists e' : Env,
         watch.timerLoop_pass w true 0 e = watch.Looping e'
         /\ trace e' = trace e ++ [EvSend 1 (MInt 0)]
         /\ sig_ready (watch.StopKey (watch.base w)) e' = true).
Proof.
  intros w e.
  assert (Hready : sig_ready (watch.StopKey (watch.base w)) e = true)
    by (vm_compute; reflexivity).
  split; [exact Hready |].
  destruct (timerLoop_stop_observed w e Hready) as (_ & Hstop & _ & Htimer & _).
  split; [apply (Hstop 1); reflexivity |].
  destruct (Htimer 0 eq_refl)
    as [(e' & Hpass & Htr & Hsig & _) | [(e' & served & h & rest & Hpass & _)
                                        | (msg & Hpass & _)]].
  - exists e'. split; [exact Hpass |]. split; [exact Htr | exact Hsig].
  - vm_compute in Hpass. discriminate.
  - vm_compute in Hpass. discriminate.
Defined.

(** ** The stream registry *)

Section RegistryFacts.
Import global.

Lemma concat_insert_snoc (ls : list (list Sample)) (i : nat) (l : list Sample) (s : Sample) :
  ls !! i = Some l -> concat (<[i := l ++ [s]]> ls) ≡ₚ concat ls ++ [s].
Proof.
  revert i. induction ls as [|l0 ls IH]; intros [|i] Hi; cbn in *; try discriminate.
  - injection Hi as ->. rewrite <- !app_assoc.
    apply Permutation_app_head, Permutation_app_comm.
  - rewrite (IH i Hi). now rewrite app_assoc.
Qed.

Lemma shared_step (p p' : Pipeline) (a : Action) (tk : list Sample) :
  shared p tk -> step p a = Some p' ->
  exists tk', shared p' tk' /\ length (seen p') = length (seen p).
Proof.
  intros (Hp & Hperm & Hsub). destruct a as [s|i]; cbn.
  - intros Heq; injection Heq as <-. exists tk.
    unfold shared. cbn [queue pushed seen].
    split; [| reflexivity]. split; [| split; assumption].
    rewrite Hp. now rewrite <- app_assoc.
  - destruct (queue p) as [|s rest] eqn:Hq; [discriminate |].
    destruct (seen p !! i) as [log|] eqn:Hi; [| discriminate].
    intros Heq; injection Heq as <-. exists (tk ++ [s]).
    unfold shared. cbn [queue pushed seen].
    split; [| apply length_insert]. split; [| split].
    + rewrite Hp. now rewrite <- app_assoc.
    + rewrite (concat_insert_snoc _ _ _ _ Hi). now rewrite Hperm.
    + apply Forall_insert.
      * eapply Forall_impl; [exact Hsub |]. intros l Hl. now apply sublist_inserts_r.
      * apply sublist_app; [| reflexivity].
        exact (Forall_lookup_1 _ _ _ _ Hsub Hi).
Qed.

Lemma shared_run (acts : list Action) (p p' : Pipeline) (tk : list Sample) :
  shared p tk -> run p acts = Some p' ->
  exists tk', shared p' tk' /\ length (seen p') = length (seen p).
Proof.
  revert p tk. induction acts as [|a acts IH]; intros p tk Hsh; cbn.
  - intros Heq; injection Heq as <-. eauto.
  - destruct (step p a) as [p1|] eqn:Hst; [| discriminate].
    destruct (shared_step p p1 a tk Hsh Hst) as (tk1 & Hsh1 & Hlen1).
    intros Hrun. destruct (IH p1 tk1 Hsh1 Hrun) as (tk' & Hsh' & Hlen').
    exists tk'. split; [exact Hsh' | congruence].
Qed.

Lemma shared_taken (p : Pipeline) (tk : list Sample) :
  shared p tk -> taken p = tk.
Proof.
  intros (Hp & _). unfold taken. rewrite Hp, length_app.
  replace (length tk + length (queue p) - length (queue p)) with (length tk) by lia.
  now rewrite take_app_length.
Qed.

Lemma shared_started (calls : list StartCall) : shared (started calls) [].
Proof.
  unfold shared, started. cbn [queue pushed seen].
  split; [reflexivity |]. split.
  - induction calls as [|c calls IH]; cbn; [reflexivity | exact IH].
  - induction calls as [|c calls IH]; cbn; constructor; [constructor | exact IH].
Qed.

Lemma concat_all_equal (ls : list (list Sample)) (l : list Sample) :
  Forall (fun log => log = l) ls -> length (concat ls) = length ls * length l.
Proof.
  induction 1 as [|x ls -> _ IH]; cbn; [reflexivity |].
  now rewrite length_app, IH.
Qed.

Lemma sublist_full (l1 l2 : list Sample) :
  sublist l1 l2 -> length l2 <= length l1 -> l1 = l2.
Proof.
  induction 1 as [|x l1 l2 _ IH|x l1 l2 Hsub _]; cbn; intros Hlen.
  - reflexivity.
  - f_equal. apply IH. lia.
  - apply sublist_length in Hsub. lia.
Qed.
End RegistryFacts.

(** Three samples pushed, each sink receiving once: every sample has gone
    to one sink only. *)
Lemma abc_run :
  global.run (global.started (fst (global.Start abc 0 0 0)))
    [global.Push 1; global.Push 2; global.Push 3;
     global.Recv 0; global.Recv 1; global.Recv 2]
  = Some {| global.queue := []; global.pushed := [1; 2; 3];
            global.seen := [[1]; [2]; [3]] |}.
Proof. vm_compute. reflexivity. Qed.

(** C1, as stated, fails: sinks started on one shared channel do not each
    observe every sample, even when the channel has been drained. *)
Lemma shared_channel_is_not_a_broadcast :
  ~ (forall (r : global.StreamRegisterer) (c w k : nat)
            (acts : list global.Action) (p : global.Pipeline),
        global.run (global.started (fst (global.Start r c w k))) acts = Some p ->
        global.queue p = [] ->
        Forall (fun log => log = global.pushed p) (global.seen p)).
Proof.
  intros Hclaim.
  specialize (Hclaim abc 0 0 0 _ _ abc_run eq_refl).
  cbn in Hclaim. inversion Hclaim as [|x l Hx _]. discriminate.
Qed.

(** C1, amended.  [Start] returns nil having called every registered sink,
    in registration order, with the same context, wait group and channel.
    The sinks then share that one channel: in every run each sample taken
    off it has been received by exactly one sink, and each sink has
    received a subsequence of the pushed samples, in the order pushed.  A
    single registered sink receives the whole pushed sequence once the
    channel is drained; with two sinks or more, no run lets every sink
    receive every sample. *)
Theorem Start_shares_one_channel
    (r : global.StreamRegisterer) (c w k : nat)
    (acts : list global.Action) (p : global.Pipeline) :
  global.run (global.started (fst (global.Start r c w k))) acts = Some p ->
  snd (global.Start r c w k) = None
  /\ fst (global.Start r c w k)
     = map (fun s => {| global.callee := s; global.ctx := c;
                        global.wg := w; global.ch := k |}) (global.streams r)
  /\ length (global.seen p) = length (global.streams r)
  /\ global.pushed p = global.taken p ++ global.queue p
  /\ concat (global.seen p) ≡ₚ global.taken p
  /\ Forall (fun log => sublist log (global.pushed p)) (global.seen p)
  /\ (length (global.streams r) = 1 -> global.queue p = [] ->
      global.seen p = [global.pushed p])
  /\ (2 <= length (global.streams r) -> global.pushed p <> [] ->
      ~ Forall (fun log => log = global.pushed p) (global.seen p)).
Proof.
  intros Hrun.
  destruct (shared_run acts _ p [] (shared_started _) Hrun) as (tk & Hsh & Hlen).
  pose proof (shared_taken p tk Hsh) as Htk.
  destruct Hsh as (Hp & Hperm & Hsub). rewrite Htk.
  assert (Hn : length (global.seen p) = length (global.streams r)).
  { rewrite Hlen. cbn. now rewrite !length_map. }
  split; [reflexivity |]. split; [reflexivity |]. split; [exact Hn |].
  split; [exact Hp |]. split; [exact Hperm |]. split; [| split].
  - eapply Forall_impl; [exact Hsub |]. intros l Hl. rewrite Hp.
    now apply sublist_inserts_r.
  - intros H1 Hq. rewrite Hq, app_nil_r in Hp. rewrite H1 in Hn.
    destruct (global.seen p) as [|log [|]]; cbn in Hn; try lia.
    cbn in Hperm. rewrite app_nil_r in Hperm.
    f_equal. rewrite Hp. apply sublist_full.
    + now inversion Hsub.
    + now rewrite (Permutation_length Hperm).
  - intros H2 Hne Hall.
    pose proof (concat_all_equal _ _ Hall) as Hcat.
    pose proof (Permutation_length Hperm) as Hpl.
    assert (Hle : length tk <= length (global.pushed p)).
    { rewrite Hp, length_app. lia. }
    assert (Hpos : 1 <= length (global.pushed p)).
    { destruct (global.pushed p); [congruence | cbn; lia]. }
    rewrite Hcat, Hn in Hpl. nia.
Qed.

Lemma Start_shares_one_channel_witness :
  let p := {| global.queue := []; global.pushed := [1; 2; 3];
              global.seen := [[1]; [2]; [3]] |} in
  concat (global.seen p) ≡ₚ global.taken p
  /\ ~ Forall (fun log => log = global.pushed p) (global.seen p).
Proof.
  intros p.
  assert (Hrun : global.run (global.started (fst (global.Start abc 0 0 0)))
                   [global.Push 1; global.Push 2; global.Push 3;
                    global.Recv 0; global.Recv 1; global.Recv 2] = Some p)
    by (vm_compute; reflexivity).
  destruct (Start_shares_one_channel abc 0 0 0 _ p Hrun)
    as (_ & _ & _ & _ & Hperm & _ & _ & Hno).
  split; [exact Hperm |].
  apply Hno; [vm_compute; lia | discriminate].
Defined.


(** * Further properties *)

(** ** Fingerprints: persisting, reading back, kinds of error *)

Section FingerprintMore.
Import fingerprint.
Local Open Scope string_scope.

Lemma unhex_digits (b : byte) :
  Byte.of_N (16 * fmt.digit_value (fmt.digit (N.shiftr (Byte.to_N b) 4))
             + fmt.digit_value (fmt.digit (N.land (Byte.to_N b) 15))) = Some b.
Proof. destruct b; vm_compute; reflexivity. Qed.

(** Decoding undoes [%x]. *)
Lemma unhex_Sprintf_x (bs : list byte) : fmt.unhex (fmt.Sprintf_x bs) = bs.
Proof.
  induction bs as [|b bs IH]; [reflexivity |].
  cbn [fmt.Sprintf_x fmt.unhex]. now rewrite unhex_digits, IH.
Qed.

Lemma Sprintf_x_inj (bs1 bs2 : list byte) :
  fmt.Sprintf_x bs1 = fmt.Sprintf_x bs2 -> bs1 = bs2.
Proof.
  intros Heq. rewrite <- (unhex_Sprintf_x bs1), <- (unhex_Sprintf_x bs2).
  now rewrite Heq.
Qed.

Lemma length_list_byte_of_string (s : string) :
  length (list_byte_of_string s) = String.length s.
Proof.
  unfold list_byte_of_string. rewrite length_map.
  induction s as [|c s IH]; cbn; [reflexivity | now rewrite IH].
Qed.

Lemma New_hash_length (w : Writer) (val : list byte) :
  String.length (hash (fst (New w val))) = 64.
Proof. rewrite New_eq. cbn. now rewrite Sprintf_x_length, Sum256_length. Qed.
End FingerprintMore.

(** X1.  Drift detection end to end: with the store holding the digest
    that [Write] persists for some earlier data, [NewWithValidation] on
    new data succeeds exactly when the two SHA-256 digests are equal, and
    then returns the fingerprint of [New]; otherwise it returns the zero
    fingerprint and a [ValidationError] naming the stored and the new
    digest. *)
Theorem NewWithValidation_detects_drift
    (val0 val : list byte) (w0 w : fingerprint.Writer) :
  let old := fingerprint.Hash (fst (fingerprint.New w0 val0)) in
  let r := fingerprint.NewWithValidation val w
             (fingerprint.store (list_byte_of_string old)) in
  (snd r = None <-> sha256.Sum256 val = sha256.Sum256 val0)
  /\ (sha256.Sum256 val = sha256.Sum256 val0 -> r = (fst (fingerprint.New w val), None))
  /\ (sha256.Sum256 val <> sha256.Sum256 val0 ->
      r = (fingerprint.zerofp,
           Some (fingerprint.ValidationError (fingerprint.errorString
             ("hash mismatch detected, expected " ++ old ++ ", got "
              ++ fingerprint.Hash (fst (fingerprint.New w val)))%string)))).
Proof.
  intros old r. subst old r.
  unfold fingerprint.NewWithValidation. rewrite !New_eq. cbn [fst].
  rewrite validate_store, string_of_list_byte_of_string.
  unfold fingerprint.Hash. cbn [fingerprint.hash].
  rewrite length_list_byte_of_string, Sprintf_x_length, Sum256_length.
  cbn [Nat.ltb Nat.leb Nat.mul Nat.add andb].
  destruct (String.eqb_spec (fmt.Sprintf_x (sha256.Sum256 val0))
                            (fmt.Sprintf_x (sha256.Sum256 val))) as [Heq|Hne]; cbn.
  - apply Sprintf_x_inj in Heq. split; [| split].
    + split; congruence.
    + reflexivity.
    + congruence.
  - assert (Hd : sha256.Sum256 val <> sha256.Sum256 val0) by congruence.
    split; [| split].
    + split; [discriminate | contradiction].
    + contradiction.
    + reflexivity.
Qed.

Lemma NewWithValidation_detects_drift_witness :
  let same := fingerprint.NewWithValidation (list_byte_of_string "pid=41")
                devnull
                (fingerprint.store (list_byte_of_string
                   (fingerprint.Hash (fst (fingerprint.New devnull
                                             (list_byte_of_string "pid=41")))))) in
  let moved := fingerprint.NewWithValidation (list_byte_of_string "pid=42")
                devnull
                (fingerprint.store (list_byte_of_string
                   (fingerprint.Hash (fst (fingerprint.New devnull
                                             (list_byte_of_string "pid=41")))))) in
  snd same = None /\ fst moved = fingerprint.zerofp /\ snd moved <> None.
Proof.
  intros same moved.
  destruct (NewWithValidation_detects_drift
              (list_byte_of_string "pid=41") (list_byte_of_string "pid=41")
              devnull devnull) as (Hiff & _ & _).
  destruct (NewWithValidation_detects_drift
              (list_byte_of_string "pid=41") (list_byte_of_string "pid=42")
              devnull devnull) as (_ & _ & Hdiff).
  split; [apply (proj2 Hiff); reflexivity |].
  assert (Hne : sha256.Sum256 (list_byte_of_string "pid=42")
                <> sha256.Sum256 (list_byte_of_string "pid=41"))
    by (vm_compute; discriminate).
  subst moved. rewrite (Hdiff Hne). split; [reflexivity | discriminate].
Defined.

(** X2.  [Write] on a fingerprint made by [New] offers the writer the 64
    bytes of the digest text, which read back as that text.  It returns
    nil exactly when the writer reports 64 bytes and no error; an error
    of the writer is returned as it is, and a count other than 64 is an
    error even when the writer reports none.  On the zero fingerprint,
    which has no writer, [Write] panics. *)
Theorem Write_persists_digest (w : fingerprint.Writer) (val : list byte) :
  let fp := fst (fingerprint.New w val) in
  let p := list_byte_of_string (fingerprint.Hash fp) in
  length p = 64
  /\ string_of_list_byte p = fingerprint.Hash fp
  /\ (fingerprint.Write fp = Returned None <-> fingerprint.write w p = (64, None))
  /\ (forall (n : nat) (e : fingerprint.error),
         fingerprint.write w p = (n, Some e) ->
         fingerprint.Write fp = Returned (Some e))
  /\ (forall n : nat,
         fingerprint.write w p = (n, None) -> n <> 64 ->
         fingerprint.Write fp
         = Returned (Some (fingerprint.errorString
             ("unexpected number of bytes written: " ++ fmt.Sprintf_d n ++ "/64")%string)))
  /\ fingerprint.Write fingerprint.zerofp
     = Panicked "invalid memory address or nil pointer dereference".
Proof.
  intros fp p. subst fp p.
  pose proof (New_hash_length w val) as Hlen.
  rewrite New_eq in *. cbn [fst fingerprint.Hash fingerprint.hash] in *.
  set (h := fmt.Sprintf_x (sha256.Sum256 val)) in *.
  split; [now rewrite length_list_byte_of_string |].
  split; [apply string_of_list_byte_of_string |].
  unfold fingerprint.Write. cbn [fingerprint.out fingerprint.hash]. rewrite Hlen.
  split; [| split; [| split; [| reflexivity]]].
  - destruct (fingerprint.write w (list_byte_of_string h)) as [n [e|]].
    + split; [discriminate | intros Heq; inversion Heq].
    + destruct (Nat.eqb_spec n 64) as [->|Hne]; cbn.
      * split; reflexivity.
      * split; [discriminate | intros Heq; inversion Heq; contradiction].
  - intros n e ->. reflexivity.
  - intros n -> Hne. destruct (Nat.eqb_spec n 64); [contradiction | reflexivity].
Qed.

Lemma Write_persists_digest_witness :
  fingerprint.Write (fst (fingerprint.New devnull (list_byte_of_string "abc")))
    = Returned None
  /\ fingerprint.Write
       (fst (fingerprint.New {| fingerprint.write := fun _ => (3, None) |}
                             (list_byte_of_string "abc")))
     = Returned (Some (fingerprint.errorString
                         "unexpected number of bytes written: 3/64")).
Proof.
  split.
  - apply (proj1 (proj2 (proj2 (Write_persists_digest devnull (list_byte_of_string "abc"))))).
    vm_compute. reflexivity.
  - destruct (Write_persists_digest {| fingerprint.write := fun _ => (3, None) |}
                                    (list_byte_of_string "abc"))
      as (_ & _ & _ & _ & Hshort & _).
    apply (Hshort 3); [reflexivity | lia].
Defined.

(** X3.  The two kinds of failure of [NewWithValidation] stay apart.  An
    error met while reading the store is returned as it is, whatever was
    read; with a store read without error the only possible error is a
    [ValidationError].  An error always comes with the zero fingerprint,
    and success with the fingerprint of [New], carrying the given writer
    and a 64-character digest. *)
Theorem NewWithValidation_error_kinds
    (val : list byte) (w : fingerprint.Writer) (prev : fingerprint.Reader) :
  let r := fingerprint.NewWithValidation val w prev in
  (forall e : fingerprint.error, fingerprint.failure prev = Some e ->
      r = (fingerprint.zerofp, Some e))
  /\ (fingerprint.failure prev = None ->
      forall e : fingerprint.error, snd r = Some e ->
      exists inner : fingerprint.error, e = fingerprint.ValidationError inner)
  /\ (snd r <> None -> fst r = fingerprint.zerofp)
  /\ (snd r = None ->
      fst r = fst (fingerprint.New w val)
      /\ fingerprint.out (fst r) = Some w
      /\ String.length (fingerprint.Hash (fst r)) = 64).
Proof.
  intros r. subst r.
  pose proof (New_hash_length w val) as Hlen.
  unfold fingerprint.NewWithValidation. rewrite New_eq in *. cbn [fst] in *.
  unfold fingerprint.validate, fingerprint.ReadAll, fingerprint.validationError.
  destruct (fingerprint.failure prev) as [e0|] eqn:Hf.
  - cbn. split; [| split; [| split]].
    + intros e Heq. now injection Heq as ->.
    + discriminate.
    + reflexivity.
    + discriminate.
  - destruct (andb _ _); cbn; (split; [| split; [| split]]).
    + discriminate.
    + intros _ e Heq. injection Heq as <-. eauto.
    + reflexivity.
    + discriminate.
    + discriminate.
    + discriminate.
    + intros Hne. congruence.
    + intros _. split; [reflexivity |]. split; [reflexivity | exact Hlen].
Qed.

Lemma NewWithValidation_error_kinds_witness :
  fingerprint.NewWithValidation (list_byte_of_string "abc") devnull
    {| fingerprint.contents := list_byte_of_string "ab";
       fingerprint.failure := Some (fingerprint.errorString "unexpected EOF") |}
  = (fingerprint.zerofp, Some (fingerprint.errorString "unexpected EOF")).
Proof.
  apply (proj1 (NewWithValidation_error_kinds (list_byte_of_string "abc") devnull
           {| fingerprint.contents := list_byte_of_string "ab";
              fingerprint.failure := Some (fingerprint.errorString "unexpected EOF") |})).
  reflexivity.
Defined.


(** ** Watchers: states, subscribers, the timer loop *)

Section WatchMore.
Import watch.

Lemma inv_phase (w : Watch) (e : Env) :
  inv w e -> exists ph, phase w e = Some ph.
Proof.
  intros (d & c & Ho & _ & _ & _ & _ & Hfresh & _). unfold phase. rewrite Ho.
  destruct d.
  - destruct (Running w); eauto.
  - destruct (Hfresh eq_refl) as [-> _]. eauto.
Qed.

(** [Emit] changes nothing but the channels it sends on and the trace. *)
Lemma emit_to_only (hs : list nat) (m : Msg) (e e' : Env) :
  emit_to hs m e = Returned e' \/ emit_to hs m e = Blocked e' ->
  (forall k, k ∉ hs -> chans e' !! k = chans e !! k)
  /\ exists served, served `prefix_of` hs
                    /\ trace e' = trace e ++ map (fun c => EvSend c m) served.
Proof.
  revert e. induction hs as [|h hs IH]; intros e; cbn [emit_to].
  - intros [Hr|Hr]; inversion Hr; subst. split; [auto |].
    exists []. split; [reflexivity | cbn; now rewrite app_nil_r].
  - unfold send_chan at 1 2.
    destruct (chans e !! h) as [c|] eqn:Hc.
    + destruct (chan.send c m) as [c'|c'|msg] eqn:Hs.
      * intros Hr. destruct (IH _ Hr) as (Hk & served & Hpre & Ht). split.
        -- intros k Hk'. apply not_elem_of_cons in Hk' as [Hne Hnot].
           rewrite (Hk k Hnot). cbn. apply lookup_insert_ne. congruence.
        -- exists (h :: served). split; [now apply prefix_cons |].
           rewrite Ht. cbn. now rewrite <- app_assoc.
      * intros [Hr|Hr]; inversion Hr; subst. split; [auto |].
        exists []. split; [apply prefix_nil | cbn; now rewrite app_nil_r].
      * intros [Hr|Hr]; inversion Hr.
    + intros [Hr|Hr]; inversion Hr; subst. split; [auto |].
      exists []. split; [apply prefix_nil | cbn; now rewrite app_nil_r].
Qed.

Lemma select_timer_fired (fired stop : bool) (pick : nat) :
  select (ready_cases fired stop) pick = Some CaseTimer -> fired = true.
Proof.
  unfold select. destruct fired; [reflexivity |].
  destruct stop; cbn [ready_cases app length].
  - rewrite Nat.mod_1_r. discriminate.
  - destruct (pick `mod` 0); discriminate.
Qed.

Lemma recv_sig_trace (k : nat) (e e' : Env) (b : bool) :
  recv_sig k e = Some (b, e') -> trace e' = trace e /\ chans e' = chans e.
Proof.
  unfold recv_sig. destruct (sigs e !! k) as [c|]; [| discriminate].
  destruct (chan.recv false c) as [[b' c']|]; [| discriminate].
  intros Heq; injection Heq as <- <-. split; reflexivity.
Qed.

(** What one pass of the timer loop adds to the trace: sends of the
    sample 0 to listeners, in their order, and only when the timer fired. *)
Lemma timerLoop_pass_sends (w : TimerWatch) (fired : bool) (pick : nat) (e e' : Env) :
  pass_env (timerLoop_pass w fired pick e) = Some e' ->
  exists served,
    served `prefix_of` listeners (base w)
    /\ (fired = false -> served = [])
    /\ trace e' = trace e ++ map (fun c => EvSend c (MInt 0)) served.
Proof.
  unfold timerLoop_pass.
  destruct (select _ pick) as [[]|] eqn:Hsel.
  - apply select_timer_fired in Hsel as ->.
    unfold TimerWatch_Emit, Watch_Emit.
    destruct (emit_to (listeners (base w)) (MInt 0) e) as [e1|e1|msg] eqn:Hem;
      cbn [pass_env]; try discriminate; intros Heq; injection Heq as <-.
    + destruct (emit_to_only _ _ e e1 (or_introl Hem)) as (_ & served & Hpre & Ht).
      exists served. split; [exact Hpre |]. split; [discriminate | exact Ht].
    + destruct (emit_to_only _ _ e e1 (or_intror Hem)) as (_ & served & Hpre & Ht).
      exists served. split; [exact Hpre |]. split; [discriminate | exact Ht].
  - destruct (recv_sig (StopKey (base w)) e) as [[b e1]|] eqn:Hrv; cbn [pass_env];
      intros Heq; injection Heq as <-; exists []; (split; [apply prefix_nil |]);
      (split; [reflexivity |]); cbn; rewrite app_nil_r.
    + exact (proj1 (recv_sig_trace _ _ _ _ Hrv)).
    + reflexivity.
  - cbn [pass_env]. intros Heq; injection Heq as <-. exists [].
    split; [apply prefix_nil |]. split; [reflexivity |]. cbn. now rewrite app_nil_r.
Qed.
(** Where [Start] and [Stop] take a watcher from each of its states. *)
Lemma phase_transitions (w : watch.Watch) (e : Env) :
  watch.reachable w e ->
  exists ph : watch.Phase,
    watch.phase w e = Some ph
    /\ (exists (w' : watch.Watch) (e' : Env),
           watch.Start w e = Returned (w', e')
           /\ watch.phase w' e'
              = Some (match ph with watch.Created => watch.Started | other => other end)
           /\ (ph <> watch.Created -> (w', e') = (w, e)))
    /\ (exists (w' : watch.Watch) (e' : Env),
           watch.Watch_Stop w e = Returned (w', e')
           /\ watch.phase w' e'
              = Some (match ph with watch.Started => watch.Stopped | other => other end)
           /\ (ph <> watch.Started -> (w', e') = (w, e))).
Proof.
  intros Hreach. pose proof (reachable_inv w e Hreach) as Hinv.
  destruct (inv_phase w e Hinv) as [ph Hph]. exists ph. split; [exact Hph |].
  unfold watch.phase in Hph.
  destruct (onces e !! watch.startOnce w) as [d|] eqn:Ho; [| discriminate].
  destruct (watch.Running w) eqn:Hr.
  - (* Started *)
    destruct d; [| discriminate]. injection Hph as <-. split.
    + exists w, e. split; [now apply (@Start_done _ watch.Watch_Watcher) |].
      split; [| reflexivity]. unfold watch.phase. now rewrite Ho, Hr.
    + destruct (Stop_running w e Hinv Hr) as (c & Hs & Hstop).
      eexists _, _. split; [exact Hstop |]. split; [| congruence].
      unfold watch.phase. cbn. now rewrite Ho.
  - assert (Hstop : watch.Watch_Stop w e = Returned (w, e))
      by (unfold watch.Watch_Stop; now rewrite Hr).
    destruct d; injection Hph as <-.
    + (* Stopped *)
      split.
      * exists w, e. split; [now apply (@Start_done _ watch.Watch_Watcher) |].
        split; [| reflexivity]. unfold watch.phase. now rewrite Ho, Hr.
      * exists w, e. split; [exact Hstop |].
        split; [| reflexivity]. unfold watch.phase. now rewrite Ho, Hr.
    + (* Created *)
      split.
      * eexists _, _. split; [apply (@Start_first _ watch.Watch_Watcher w e Ho) |].
        split; [| congruence]. unfold watch.phase. cbn. now rewrite lookup_insert_eq.
      * exists w, e. split; [exact Hstop |].
        split; [| reflexivity]. unfold watch.phase. now rewrite Ho, Hr.
Qed.
End WatchMore.

(** X4.  The life of a watcher is Created, Started, Stopped, in that order
    and never back.  In every state reached through the package the
    watcher is in one of the three; [Start] takes a Created watcher to
    Started and leaves a Started or Stopped one as it is; [Stop] takes a
    Started watcher to Stopped and leaves a Created or Stopped one as it
    is.  A stopped watcher is not started again, and a watcher stopped
    before its start can still be started. *)
Theorem watcher_phases (w : watch.Watch) (e : Env) :
  watch.reachable w e ->
  exists ph : watch.Phase,
    watch.phase w e = Some ph
    /\ (exists (w' : watch.Watch) (e' : Env),
           watch.Start w e = Returned (w', e')
           /\ watch.phase w' e'
              = Some (match ph with watch.Created => watch.Started | other => other end)
           /\ (ph <> watch.Created -> (w', e') = (w, e)))
    /\ (exists (w' : watch.Watch) (e' : Env),
           watch.Watch_Stop w e = Returned (w', e')
           /\ watch.phase w' e'
              = Some (match ph with watch.Started => watch.Stopped | other => other end)
           /\ (ph <> watch.Started -> (w', e') = (w, e))).
Proof. exact (phase_transitions w e). Qed.

Lemma watcher_phases_witness :
  let s := watch.NewWatch heap0 in
  exists (w' : watch.Watch) (e' : Env),
    watch.Start (fst s) (snd s) = Returned (w', e')
    /\ watch.phase w' e' = Some watch.Started.
Proof.
  intros s.
  destruct (watcher_phases (fst s) (snd s) (watch.reach_NewWatch heap0))
    as (ph & Hph & (w' & e' & Hst & Hph' & _) & _).
  assert (ph = watch.Created) as -> by (vm_compute in Hph; congruence).
  exists w', e'. split; [exact Hst | exact Hph'].
Defined.

(** X5.  [Emit] reaches the listeners of the moment and nothing else:
    whether it returns or parks, the once cells and the bool channels are
    as before, every channel that is not a listener is as before, and the
    trace has grown by sends of that one message to a prefix of the
    listeners.  A target subscribed later gets nothing of it. *)
Theorem Emit_only_to_listeners (w : watch.Watch) (m : Msg) (e e' : Env) :
  watch.Watch_Emit w m e = Returned e' \/ watch.Watch_Emit w m e = Blocked e' ->
  onces e' = onces e /\ sigs e' = sigs e
  /\ (forall k : nat, k ∉ watch.listeners w -> chans e' !! k = chans e !! k)
  /\ (exists served : list nat,
         served `prefix_of` watch.listeners w
         /\ trace e' = trace e ++ map (fun c => EvSend c m) served)
  /\ (forall (late : nat),
         late ∉ watch.listeners w ->
         watch.listeners (watch.Watch_Subscribe w late) = watch.listeners w ++ [late]
         /\ room e' late = room e late).
Proof.
  intros Hem. unfold watch.Watch_Emit in Hem.
  destruct (emit_to_frame _ _ _ _ Hem) as [Ho Hs].
  destruct (emit_to_only _ _ _ _ Hem) as [Hk Htr].
  split; [exact Ho |]. split; [exact Hs |]. split; [exact Hk |]. split; [exact Htr |].
  intros late Hlate. split; [reflexivity |].
  unfold room. now rewrite (Hk late Hlate).
Qed.

Lemma Emit_only_to_listeners_witness :
  let w := watch.Watch_Subscribe (fst (watch.NewWatch heap2)) 1 in
  exists e' : Env,
    watch.Watch_Emit w (MInt 7) heap2 = Returned e'
    /\ trace e' = [EvSend 1 (MInt 7)]
    /\ chans e' !! 2 = chans heap2 !! 2.
Proof.
  intros w.
  assert (Hem : watch.Watch_Emit w (MInt 7) heap2
                = Returned (emit_event (EvSend 1 (MInt 7))
                              (set_chan 1 {| chan.buf := [MInt 7]; chan.cap := 2;
                                             chan.recvq := 0; chan.closed := false |}
                                        heap2)))
    by (vm_compute; reflexivity).
  destruct (Emit_only_to_listeners w (MInt 7) heap2 _ (or_introl Hem))
    as (_ & _ & Hk & _).
  eexists. split; [exact Hem |]. split; [reflexivity |].
  apply Hk. vm_compute. intros Hin. inversion Hin as [|? ? ? Hin']; inversion Hin'.
Defined.

(** X6.  The timer loop emits on elapsed intervals only.  Along any
    schedule, whatever the loop has added to the trace are sends of the
    sample 0 to listeners of the watcher, at most one round of the
    listeners for each pass whose timer had fired: no tick, no sample, and
    no catching up on missed ticks. *)
Theorem timerLoop_emits_only_on_ticks
    (w : watch.TimerWatch) (sched : list (bool * nat)) (e e' : Env) :
  watch.pass_env (watch.timerLoop w sched e) = Some e' ->
  exists sent : list nat,
    trace e' = trace e ++ map (fun c => EvSend c (MInt 0)) sent
    /\ (forall c : nat, c ∈ sent -> c ∈ watch.listeners (watch.base w))
    /\ length sent <= watch.ticks sched * length (watch.listeners (watch.base w)).
Proof.
  revert e. induction sched as [|[fired pick] sched IH]; intros e; cbn [watch.timerLoop].
  - cbn. intros Heq; injection Heq as <-. exists [].
    split; [cbn; now rewrite app_nil_r |]. split; [intros c Hc; inversion Hc | cbn; lia].
  - assert (Hone : forall e1,
               watch.pass_env (watch.timerLoop_pass w fired pick e) = Some e1 ->
               watch.pass_env (watch.timerLoop w sched e1) = Some e' ->
               exists sent : list nat,
                 trace e' = trace e ++ map (fun c => EvSend c (MInt 0)) sent
                 /\ (forall c : nat, c ∈ sent -> c ∈ watch.listeners (watch.base w))
                 /\ length sent
                    <= watch.ticks ((fired, pick) :: sched)
                       * length (watch.listeners (watch.base w))).
    { intros e1 Hp Hrest.
      destruct (timerLoop_pass_sends w fired pick e e1 Hp) as (s1 & Hpre1 & Hno & Ht1).
      destruct (IH e1 Hrest) as (s2 & Ht2 & Hin2 & Hlen2).
      exists (s1 ++ s2). split; [| split].
      - rewrite Ht2, Ht1, map_app. now rewrite <- app_assoc.
      - intros c Hc. apply elem_of_app in Hc as [Hc|Hc]; [| now apply Hin2].
        destruct Hpre1 as [rest ->]. apply elem_of_app. now left.
      - rewrite length_app. apply prefix_length in Hpre1. cbn [watch.ticks].
        destruct fired; [nia | rewrite (Hno eq_refl); cbn; lia]. }
    destruct (watch.timerLoop_pass w fired pick e) as [e1|e1|e1|e1|msg] eqn:Hp.
    + intros Hrest. exact (Hone e1 eq_refl Hrest).
    + cbn [watch.pass_env]. intros Heq.
      destruct (timerLoop_pass_sends w fired pick e e1) as (s1 & Hpre1 & Hno & Ht1);
        [now rewrite Hp |].
      injection Heq as <-. exists s1. split; [exact Ht1 |]. split.
      * intros c Hc. destruct Hpre1 as [rest ->]. apply elem_of_app. now left.
      * apply prefix_length in Hpre1. cbn [watch.ticks].
        destruct fired; [nia | rewrite (Hno eq_refl); cbn; lia].
    + intros Hrest. exact (Hone e1 eq_refl Hrest).
    + cbn [watch.pass_env]. intros Heq.
      destruct (timerLoop_pass_sends w fired pick e e1) as (s1 & Hpre1 & Hno & Ht1);
        [now rewrite Hp |].
      injection Heq as <-. exists s1. split; [exact Ht1 |]. split.
      * intros c Hc. destruct Hpre1 as [rest ->]. apply elem_of_app. now left.
      * apply prefix_length in Hpre1. cbn [watch.ticks].
        destruct fired; [nia | rewrite (Hno eq_refl); cbn; lia].
    + cbn. discriminate.
Qed.

Lemma timerLoop_emits_only_on_ticks_witness :
  let w := fst running_timer in
  let e := snd running_timer in
  exists (e' : Env) (sent : list nat),
    watch.pass_env (watch.timerLoop w [(true, 0); (false, 5); (true, 3)] e) = Some e'
    /\ trace e' = trace e ++ map (fun c => EvSend c (MInt 0)) sent
    /\ length sent <= 2 * 1.
Proof.
  intros w e.
  assert (Hrun : exists e', watch.pass_env
             (watch.timerLoop w [(true, 0); (false, 5); (true, 3)] e) = Some e')
    by (eexists; vm_compute; reflexivity).
  destruct Hrun as [e' Hrun].
  destruct (timerLoop_emits_only_on_ticks w _ e e' Hrun) as (sent & Ht & _ & Hlen).
  exists e', sent. split; [exact Hrun |]. split; [exact Ht | exact Hlen].
Defined.

(** X7.  [Stop] ends the timer loop.  After [Stop] on a started timer
    watch, the next pass of the loop whose select takes the stop case
    (any pass whose timer has not fired) leaves the loop without emitting
    and takes the signal off the channel, so that nothing is left in it:
    [Stop] has signalled once, the loop has seen it once, and a further
    [Stop] changes nothing. *)
Theorem Stop_ends_timerLoop (w : watch.TimerWatch) (e : Env) :
  watch.reachable (watch.base w) e ->
  watch.Running (watch.base w) = true ->
  exists (w' : watch.TimerWatch) (e1 : Env),
    watch.TimerWatch_Stop w e = Returned (w', e1)
    /\ watch.Running (watch.base w') = false
    /\ sig_ready (watch.StopKey (watch.base w')) e1 = true
    /\ forall pick : nat,
         exists e2 : Env,
           watch.timerLoop_pass w' false pick e1 = watch.Exited e2
           /\ trace e2 = trace e1
           /\ sig_ready (watch.StopKey (watch.base w')) e2 = false
           /\ watch.TimerWatch_Stop w' e2 = Returned (w', e2).
Proof.
  intros Hreach Hr. pose proof (reachable_inv _ _ Hreach) as Hinv.
  destruct (Stop_running _ _ Hinv Hr) as (c & Hs & Hstop).
  unfold watch.TimerWatch_Stop. rewrite Hstop.
  eexists _, _. split; [reflexivity |]. cbn [watch.base watch.set_Running watch.Running watch.StopKey].
  split; [reflexivity |].
  assert (Hready : sig_ready (watch.StopKey (watch.base w))
             (emit_event (EvSignal (watch.StopKey (watch.base w)) true)
                (set_sig (watch.StopKey (watch.base w))
                   {| chan.buf := [true]; chan.cap := 1;
                      chan.recvq := 0; chan.closed := false |}
                   (call (watch.StopFn (watch.base w)) e))) = true).
  { unfold sig_ready. cbn. now rewrite lookup_insert_eq. }
  split; [exact Hready |].
  intros pick. unfold watch.timerLoop_pass, select.
  cbn [watch.base watch.StopKey watch.set_Running]. rewrite Hready.
  cbn [watch.ready_cases app length]. rewrite Nat.mod_1_r. cbn [nth_error].
  unfold recv_sig. cbn [sigs emit_event set_sig]. rewrite lookup_insert_eq.
  cbn [chan.recv chan.buf]. eexists. split; [reflexivity |].
  split; [reflexivity |]. split.
  - unfold sig_ready. cbn. now rewrite lookup_insert_eq.
  - reflexivity.
Qed.

Lemma Stop_ends_timerLoop_witness :
  let w := fst running_timer in
  let e := snd running_timer in
  exists (w' : watch.TimerWatch) (e1 e2 : Env),
    watch.TimerWatch_Stop w e = Returned (w', e1)
    /\ watch.timerLoop_pass w' false 0 e1 = watch.Exited e2
    /\ trace e2 = trace e1.
Proof.
  intros w e.
  assert (Hreach : watch.reachable (watch.base w) e).
  { eapply (TimerWatch_Start_reachable
              (watch.TimerWatch_Subscribe
                 (fst (watch.NewTimerWatch {| watch.Interval := 1 |} heap2)) 1)
              w (snd (watch.NewTimerWatch {| watch.Interval := 1 |} heap2)) e).
    - apply watch.reach_Subscribe.
      apply (watch.reach_frame _ (snd (watch.NewWatch heap2))).
      + apply watch.reach_NewWatch.
      + split; reflexivity.
    - vm_compute. reflexivity. }
  destruct (Stop_ends_timerLoop w e Hreach) as (w' & e1 & Hstop & _ & _ & Hloop).
  - vm_compute. reflexivity.
  - destruct (Hloop 0) as (e2 & Hexit & Ht & _).
    exists w', e1, e2. split; [exact Hstop |]. split; [exact Hexit | exact Ht].
Defined.

(** X8.  Watchers do not share their cells.  A watcher made by [NewWatch]
    next to an existing one has a stop channel and a once cell of its own,
    and making it, starting it and stopping it leave the once cell and the
    stop channel of the existing watcher exactly as they were: stopping
    one watcher never signals another. *)
Theorem watchers_have_their_own_cells (w1 : watch.Watch) (e : Env) :
  watch.reachable w1 e ->
  let w2 := fst (watch.NewWatch e) in
  let e2 := snd (watch.NewWatch e) in
  watch.StopKey w2 <> watch.StopKey w1
  /\ watch.startOnce w2 <> watch.startOnce w1
  /\ watch.frame w1 e e2
  /\ exists (w3 w4 : watch.Watch) (e3 e4 : Env),
       watch.Start w2 e2 = Returned (w3, e3)
       /\ watch.Watch_Stop w3 e3 = Returned (w4, e4)
       /\ watch.Running w3 = true /\ watch.Running w4 = false
       /\ watch.frame w1 e e4
       /\ watch.reachable w1 e4.
Proof.
  intros Hreach w2 e2. subst w2 e2.
  destruct (reachable_inv _ _ Hreach) as (d & c & Ho & Hs & _).
  assert (Hk : fresh (dom (sigs e)) <> watch.StopKey w1).
  { intros Heq. apply (is_fresh (dom (sigs e))). rewrite Heq.
    apply elem_of_dom. now rewrite Hs. }
  assert (Hon : fresh (dom (onces e)) <> watch.startOnce w1).
  { intros Heq. apply (is_fresh (dom (onces e))). rewrite Heq.
    apply elem_of_dom. now rewrite Ho. }
  cbn [watch.NewWatch fst snd watch.StopKey watch.startOnce].
  split; [exact Hk |]. split; [exact Hon |].
  assert (Hframe2 : watch.frame w1 e (snd (watch.NewWatch e))).
  { split; cbn; now rewrite lookup_insert_ne. }
  split; [exact Hframe2 |].
  pose proof (watch.reach_NewWatch e) as Hr2.
  destruct (phase_transitions _ _ Hr2) as (ph & Hph & (w3 & e3 & Hst & Hph3 & _) & _).
  assert (ph = watch.Created) as ->.
  { unfold watch.phase in Hph. cbn in Hph. rewrite lookup_insert_eq in Hph. congruence. }
  pose proof (watch.reach_Start _ _ _ _ Hr2 Hst) as Hr3.
  destruct (phase_transitions _ _ Hr3) as (ph3 & Hph3' & _ & (w4 & e4 & Hstop & Hph4 & _)).
  rewrite Hph3 in Hph3'. injection Hph3' as <-.
  exists w3, w4, e3, e4. split; [exact Hst |]. split; [exact Hstop |].
  assert (Hrun3 : watch.Running w3 = true).
  { unfold watch.phase in Hph3. destruct (onces e3 !! watch.startOnce w3) as [[]|];
      destruct (watch.Running w3); congruence. }
  assert (Hrun4 : watch.Running w4 = false).
  { unfold watch.phase in Hph4. destruct (onces e4 !! watch.startOnce w4) as [[]|];
      destruct (watch.Running w4); congruence. }
  split; [exact Hrun3 |]. split; [exact Hrun4 |].
  assert (Hframe4 : watch.frame w1 e e4).
  { rewrite (@Start_first _ watch.Watch_Watcher _ _) in Hst
      by (cbn; apply lookup_insert_eq).
    injection Hst as <- <-.
    unfold watch.Watch_Stop in Hstop. cbn in Hstop.
    unfold send_sig in Hstop. cbn in Hstop. rewrite lookup_insert_eq in Hstop.
    cbn in Hstop. injection Hstop as <- <-.
    split; cbn; rewrite ?lookup_insert_ne by assumption; reflexivity. }
  split; [exact Hframe4 |].
  exact (watch.reach_frame _ _ _ Hreach Hframe4).
Qed.

Lemma watchers_have_their_own_cells_witness :
  let s1 := watch.NewWatch heap0 in
  let s2 := watch.NewWatch (snd s1) in
  watch.StopKey (fst s2) <> watch.StopKey (fst s1)
  /\ watch.startOnce (fst s2) <> watch.startOnce (fst s1).
Proof.
  intros s1 s2.
  destruct (watchers_have_their_own_cells (fst s1) (snd s1) (watch.reach_NewWatch heap0))
    as (Hk & Ho & _).
  split; [exact Hk | exact Ho].
Defined.

(** ** The stream registry: registering in several calls *)

(** X9.  [Register] never fails and adds to the end: registering in two
    calls is registering the two batches in a row.  [Start] then calls
    every registration once, in that order, a sink registered twice being
    called twice, always with the one context, wait group and channel; on
    an empty registry it calls nothing. *)
Theorem Register_accumulates
    (r : global.StreamRegisterer) (ws1 ws2 : list global.Stream) (c w k : nat) :
  let r1 := fst (global.Register r ws1) in
  let r2 := fst (global.Register r1 ws2) in
  snd (global.Register r ws1) = None /\ snd (global.Register r1 ws2) = None
  /\ r2 = fst (global.Register r (ws1 ++ ws2))
  /\ map global.callee (fst (global.Start r2 c w k)) = global.streams r ++ ws1 ++ ws2
  /\ (forall s : global.Stream,
         count_occ Nat.eq_dec (map global.callee (fst (global.Start r2 c w k))) s
         = count_occ Nat.eq_dec (global.streams r) s
           + count_occ Nat.eq_dec ws1 s + count_occ Nat.eq_dec ws2 s)
  /\ Forall (fun call => global.ctx call = c /\ global.wg call = w /\ global.ch call = k)
            (fst (global.Start r2 c w k))
  /\ global.Start global.newRegisterer c w k = ([], None).
Proof.
  intros r1 r2. subst r1 r2. cbn.
  split; [reflexivity |]. split; [reflexivity |].
  split; [now rewrite app_assoc |].
  assert (Hmap : forall l : list global.Stream,
             map global.callee
               (map (fun s => {| global.callee := s; global.ctx := c;
                                 global.wg := w; global.ch := k |}) l) = l).
  { induction l as [|x l IH]; cbn; [reflexivity | now rewrite IH]. }
  rewrite Hmap. split; [now rewrite app_assoc |]. split.
  - intros s. rewrite !count_occ_app. reflexivity.
  - split; [| reflexivity].
    apply Forall_forall. intros call Hin. apply list_elem_of_In, in_map_iff in Hin.
    destruct Hin as (s & <- & _). auto.
Qed.

(** ** The network class collector *)

Section CollectorFacts.
Import collector.

Lemma readDevices_keeps (c : netClassCollector) (devs : list string)
    (m0 : gmap string NetClassIface) (d : string) :
  is_Some (m0 !! d) -> is_Some (fst (readDevices c devs m0) !! d).
Proof.
  revert m0. induction devs as [|dev devs IH]; intros m0 Hm; cbn [readDevices].
  - exact Hm.
  - destruct (ignoredDevicesPattern c dev); [now apply IH |].
    destruct (NetClassByIface (fs c) dev) as [i|e]; [| exact Hm].
    apply IH. destruct (decide (dev = d)) as [->|Hne].
    + rewrite lookup_insert_eq. eauto.
    + now rewrite lookup_insert_ne.
Qed.

(** What the loop of [getNetClassInfo] has in its map when it ends: the
    devices read so far, each with what sysfs gave for it; on an error,
    those before the first device that failed. *)
Lemma readDevices_spec (c : netClassCollector) (devs : list string)
    (m0 : gmap string NetClassIface) :
  exists (done : list string),
    (forall d i, fst (readDevices c devs m0) !! d = Some i ->
        m0 !! d = Some i
        \/ (d ∈ done /\ ignoredDevicesPattern c d = false
            /\ NetClassByIface (fs c) d = Ok i))
    /\ (forall d, d ∈ done -> ignoredDevicesPattern c d = false ->
          exists i, fst (readDevices c devs m0) !! d = Some i)
    /\ match snd (readDevices c devs m0) with
       | None => done = devs
       | Some e =>
           exists d rest, devs = done ++ d :: rest
                          /\ ignoredDevicesPattern c d = false
                          /\ NetClassByIface (fs c) d = Err e
       end.
Proof.
  revert m0. induction devs as [|dev devs IH]; intros m0; cbn [readDevices].
  - exists []. cbn. split; [auto |]. split; [| reflexivity].
    intros d Hd. inversion Hd.
  - destruct (ignoredDevicesPattern c dev) eqn:Hig.
    + destruct (IH m0) as (done & Hsound & Hcompl & Hend).
      exists (dev :: done). split; [| split].
      * intros d i Hd. destruct (Hsound d i Hd) as [?|(Hin & ? & ?)]; [now left | right].
        split; [now apply elem_of_cons; right | auto].
      * intros d Hd Hni. apply elem_of_cons in Hd as [->|Hd]; [congruence | auto].
      * destruct (snd (readDevices c devs m0)).
        -- destruct Hend as (d & rest & -> & ? & ?). exists d, rest. auto.
        -- now rewrite Hend.
    + destruct (NetClassByIface (fs c) dev) as [i0|e] eqn:Hread.
      * destruct (IH (<[dev := i0]> m0)) as (done & Hsound & Hcompl & Hend).
        exists (dev :: done). split; [| split].
        -- intros d i Hd. destruct (Hsound d i Hd) as [Hm|(Hin & ? & ?)].
           ++ destruct (decide (dev = d)) as [<-|Hne].
              ** rewrite lookup_insert_eq in Hm. injection Hm as <-. right.
                 split; [apply elem_of_cons; now left | auto].
              ** rewrite lookup_insert_ne in Hm by assumption. now left.
           ++ right. split; [now apply elem_of_cons; right | auto].
        -- intros d Hd Hni. apply elem_of_cons in Hd as [->|Hd]; [| auto].
           apply readDevices_keeps. rewrite lookup_insert_eq. eauto.
        -- destruct (snd (readDevices c devs (<[dev:=i0]> m0))).
           ++ destruct Hend as (d & rest & -> & ? & ?). exists d, rest. auto.
           ++ now rewrite Hend.
      * exists []. cbn. split; [auto |]. split.
        -- intros d Hd. inversion Hd.
        -- exists dev, devs. auto.
Qed.

(** [getNetClassInfo], the listing having succeeded: its map holds
    listed devices that the pattern does not ignore, each with what sysfs
    gave for it; it returns no error exactly when every such device could
    be read, and its map then has them all. *)
Lemma getNetClassInfo_listed (c : netClassCollector) (devs : list string) :
  NetClassDevices (fs c) = Ok devs ->
  (forall d i, fst (getNetClassInfo c) !! d = Some i ->
      d ∈ devs /\ ignoredDevicesPattern c d = false
      /\ NetClassByIface (fs c) d = Ok i)
  /\ (snd (getNetClassInfo c) = None <->
      forall d, d ∈ devs -> ignoredDevicesPattern c d = false ->
                exists i, NetClassByIface (fs c) d = Ok i)
  /\ (snd (getNetClassInfo c) = None ->
      forall d, d ∈ devs -> ignoredDevicesPattern c d = false ->
                exists i, fst (getNetClassInfo c) !! d = Some i).
Proof.
  intros Hlist. unfold getNetClassInfo. rewrite Hlist.
  destruct (readDevices_spec c devs ∅) as (done & Hsound & Hcompl & Hend).
  assert (Hin : forall d i, fst (readDevices c devs ∅) !! d = Some i ->
                d ∈ done /\ ignoredDevicesPattern c d = false
                /\ NetClassByIface (fs c) d = Ok i).
  { intros d i Hd. destruct (Hsound d i Hd) as [Hm|?]; [| assumption].
    rewrite lookup_empty in Hm. discriminate. }
  destruct (snd (readDevices c devs ∅)) as [e|].
  - destruct Hend as (bad & rest & -> & Hni & Herr).
    split; [| split].
    + intros d i Hd. destruct (Hin d i Hd) as (Hdone & ? & ?).
      split; [apply elem_of_app; now left | auto].
    + split; [discriminate |]. intros Hall.
      destruct (Hall bad) as [i Hi]; [apply elem_of_app; right; apply elem_of_cons; now left
                                     | exact Hni | congruence].
    + discriminate.
  - subst done. split; [exact Hin |]. split; [| intros _; exact Hcompl].
    split; [| reflexivity]. intros _ d Hd Hni.
    destruct (Hcompl d Hd Hni) as [i Hi]. exists i. now apply Hin.
Qed.

(** *** The library calls *)

Lemma MustNewConstMetric_Built (d : Desc) (vt : ValueType) (v : Z) (lvs : list string)
    (m : Metric) :
  MustNewConstMetric d vt v lvs = Built m ->
  m = {| desc := d; valueType := vt; value := v; labelValues := lvs |}
  /\ descErr d = None
  /\ length lvs = length (variableLabels d)
  /\ forallb utf8.ValidString lvs = true.
Proof.
  unfold MustNewConstMetric, NewConstMetric.
  destruct (descErr d); [discriminate |].
  destruct (Nat.eqb_spec (length lvs) (length (variableLabels d))) as [Hlen|];
    cbn [negb]; [| discriminate].
  destruct (List.find _ lvs) eqn:Hfind; [discriminate |].
  intros Hm; injection Hm as <-. repeat split; [exact Hlen |].
  apply forallb_forall. intros val Hval.
  pose proof (find_none _ _ Hfind val Hval) as Hneg. cbn in Hneg.
  now apply negb_false_iff in Hneg.
Qed.

Lemma MustNewConstMetric_valid (d : Desc) (vt : ValueType) (v : Z) (lvs : list string) :
  descErr d = None ->
  length lvs = length (variableLabels d) ->
  forallb utf8.ValidString lvs = true ->
  MustNewConstMetric d vt v lvs
  = Built {| desc := d; valueType := vt; value := v; labelValues := lvs |}.
Proof.
  intros Hd Hlen Hval. unfold MustNewConstMetric, NewConstMetric.
  rewrite Hd, Hlen, Nat.eqb_refl. cbn [negb].
  destruct (List.find _ lvs) as [val|] eqn:Hfind; [| reflexivity].
  apply find_some in Hfind as [Hin Hneg].
  rewrite forallb_forall in Hval. rewrite (Hval val Hin) in Hneg. discriminate.
Qed.

Lemma forallb_false_find {A : Type} (f : A -> bool) (l : list A) :
  forallb f l = false ->
  exists a, List.find (fun x => negb (f x)) l = Some a /\ In a l /\ f a = false.
Proof.
  induction l as [|x l IH]; cbn; [discriminate |].
  destruct (f x) eqn:Hx; cbn.
  - intros Hl. destruct (IH Hl) as (a & Hfind & Hin & Ha). exists a. auto.
  - intros _. exists x. auto.
Qed.

Lemma MustNewConstMetric_invalid (d : Desc) (vt : ValueType) (v : Z) (lvs : list string) :
  descErr d = None ->
  length lvs = length (variableLabels d) ->
  forallb utf8.ValidString lvs = false ->
  exists val,
    MustNewConstMetric d vt v lvs = Panics (InvalidLabelValue val)
    /\ In val lvs /\ utf8.ValidString val = false.
Proof.
  intros Hd Hlen Hval. unfold MustNewConstMetric, NewConstMetric.
  rewrite Hd, Hlen, Nat.eqb_refl. cbn [negb].
  destruct (forallb_false_find _ _ Hval) as (val & Hfind & Hin & Hbad).
  rewrite Hfind. exists val. auto.
Qed.

(** *** Sending until the first panic *)

Lemma sendAll_elem (calls : list (Must Metric)) (m : Metric) :
  m ∈ fst (sendAll calls) -> Built m ∈ calls.
Proof.
  induction calls as [|[m0|err] calls IH]; cbn [sendAll].
  - intros Hin. inversion Hin.
  - destruct (sendAll calls) as [ms p]. cbn [fst] in *.
    intros Hin. apply elem_of_cons in Hin as [->|Hin].
    + apply elem_of_cons. now left.
    + apply elem_of_cons. right. now apply IH.
  - intros Hin. inversion Hin.
Qed.

Lemma sendAll_None (calls : list (Must Metric)) :
  snd (sendAll calls) = None -> map Built (fst (sendAll calls)) = calls.
Proof.
  induction calls as [|[m0|err] calls IH]; cbn [sendAll].
  - reflexivity.
  - destruct (sendAll calls) as [ms p]. cbn [fst snd] in *.
    intros Hp. cbn. now rewrite (IH Hp).
  - discriminate.
Qed.

Lemma sendAll_built (calls : list (Must Metric)) :
  Forall (fun a => exists m, a = Built m) calls -> snd (sendAll calls) = None.
Proof.
  induction 1 as [|a calls [m ->] _ IH]; cbn [sendAll]; [reflexivity |].
  destruct (sendAll calls) as [ms p]. exact IH.
Qed.



(** *** One interface *)

Section OneInterface.
Variable ns : string.
Variables vm vl : string -> bool.



Lemma length_pushMetricIf (subsys name : string) (field : option Z)
    (ifaceName : string) (vt : ValueType) :
  length (pushMetricIf ns vm vl subsys name field ifaceName vt) <= 1.
Proof. destruct field; cbn; lia. Qed.

Lemma pushMetricIf_labelled (subsys name : string) (field : option Z)
    (i : NetClassIface) (vt : ValueType) :
  Forall (fun a => forall m, a = Built m -> well_labelled i m)
         (pushMetricIf ns vm vl subsys name field (Name i) vt).
Proof.
  destruct field; cbn; [| constructor].
  constructor; [| constructor].
  intros m Hm. apply MustNewConstMetric_Built in Hm as [-> _].
  repeat split.
Qed.

Lemma collectIface_labelled (c : netClassCollector) (i : NetClassIface) :
  Forall (fun a => forall m, a = Built m -> well_labelled i m)
         (collectIface ns vm vl c i).
Proof.
  unfold collectIface.
  repeat (apply Forall_app; split); try apply pushMetricIf_labelled.
  - constructor; [| constructor].
    intros m Hm. apply MustNewConstMetric_Built in Hm as [-> _].
    repeat split.
  - constructor; [| constructor].
    intros m Hm. apply MustNewConstMetric_Built in Hm as [-> _].
    repeat split.
  - destruct (Speed i) as [sp|]; [destruct (_ || _) |]; try constructor.
    + intros m Hm. apply MustNewConstMetric_Built in Hm as [-> _].
      repeat split.
    + constructor.
Qed.

(** What [descs_valid] says of each descriptor. *)
Lemma descs_valid_inv (c : netClassCollector) :
  descs_valid ns vm vl c = true ->
  descErr (upDesc ns vm vl c) = None
  /\ descErr (infoDesc ns vm vl c) = None
  /\ forall name, In name fieldNames ->
                  descErr (fieldDesc ns vm vl (subsystem c) name) = None.
Proof.
  unfold descs_valid. cbn [forallb]. rewrite !andb_true_iff.
  intros (Hup & Hinfo & Hfields).
  split; [destruct (descErr (upDesc ns vm vl c)); [discriminate | reflexivity] |].
  split; [destruct (descErr (infoDesc ns vm vl c)); [discriminate | reflexivity] |].
  intros name Hin. rewrite forallb_forall in Hfields.
  specialize (Hfields _ (in_map (fieldDesc ns vm vl (subsystem c)) _ _ Hin)).
  destruct (descErr (fieldDesc ns vm vl (subsystem c) name)); [discriminate | reflexivity].
Qed.

Lemma pushMetric_built (subsys name : string) (v : Z) (ifaceName : string)
    (vt : ValueType) :
  descErr (fieldDesc ns vm vl subsys name) = None ->
  utf8.ValidString ifaceName = true ->
  Forall (fun a => exists m, a = Built m)
         (pushMetric ns vm vl subsys name v ifaceName vt).
Proof.
  intros Hd Hname. constructor; [| constructor]. eexists.
  apply MustNewConstMetric_valid; [exact Hd | reflexivity |].
  cbn. now rewrite Hname.
Qed.

Lemma pushMetricIf_built (subsys name : string) (field : option Z)
    (ifaceName : string) (vt : ValueType) :
  descErr (fieldDesc ns vm vl subsys name) = None ->
  utf8.ValidString ifaceName = true ->
  Forall (fun a => exists m, a = Built m)
         (pushMetricIf ns vm vl subsys name field ifaceName vt).
Proof.
  intros Hd Hname. destruct field; [now apply pushMetric_built | constructor].
Qed.

(** The calls after those for [up] and [info] do not panic when the
    descriptors are valid and the name of the interface is valid UTF-8;
    there are at most 17 of them. *)
Lemma collectIface_fields (c : netClassCollector) (i : NetClassIface) :
  exists up info fields,
    collectIface ns vm vl c i = up :: info :: fields
    /\ up = MustNewConstMetric (upDesc ns vm vl c) GaugeValue
              (if String.eqb (OperState i) "up" then 1%Z else 0%Z) [Name i]
    /\ info = MustNewConstMetric (infoDesc ns vm vl c) GaugeValue 1%Z (texts i)
    /\ length fields <= 17
    /\ (descs_valid ns vm vl c = true -> utf8.ValidString (Name i) = true ->
        Forall (fun a => exists m, a = Built m) fields).
Proof.
  unfold collectIface. cbn [app]. eexists _, _, _. split; [reflexivity |].
  split; [reflexivity |]. split; [reflexivity |]. split.
  - rewrite !length_app.
    repeat match goal with
           | |- context [length (pushMetricIf ns vm vl ?a ?b ?f ?n ?v)] =>
               let H := fresh "Hl" in
               pose proof (length_pushMetricIf a b f n v) as H;
               generalize dependent (length (pushMetricIf ns vm vl a b f n v)); intros
           end.
    destruct (Speed i) as [sp|]; [destruct (_ || _) |]; cbn [length pushMetric]; lia.
  - intros Hvalid Hname.
    destruct (descs_valid_inv c Hvalid) as (_ & _ & Hfields).
    repeat (apply Forall_app; split);
      try (apply pushMetricIf_built; [apply Hfields; cbn; auto 25 | exact Hname]).
    destruct (Speed i) as [sp|]; [destruct (_ || _) |];
      [apply pushMetric_built; [apply Hfields; cbn; auto 25 | exact Hname]
      | constructor | constructor].
Qed.

End OneInterface.

Lemma ranged_lookup (m : gmap string NetClassIface) (visit : list string) (i : NetClassIface) :
  i ∈ ranged m visit -> exists d, d ∈ visit /\ m !! d = Some i.
Proof.
  unfold ranged. intros Hin. apply list_elem_of_omap in Hin. exact Hin.
Qed.

(** *** float64 of an int64 *)

Lemma float64_exact (v : Z) :
  (- 2 ^ 53 <= v <= 2 ^ 53)%Z -> float64 v = v.
Proof.
  intros Hv. unfold float64.
  destruct (Z.leb_spec (Z.log2 (Z.abs v) + 1 - 53) 0) as [Hle|Hgt]; [reflexivity |].
  assert (Habs : (Z.abs v = 2 ^ 53)%Z).
  { assert (Hpos : (0 < Z.abs v)%Z).
    { destruct (Z.eq_dec (Z.abs v) 0%Z) as [H0|H0]; [| lia].
      rewrite H0 in Hgt. cbn in Hgt. lia. }
    assert (Hlow : (2 ^ 53 <= Z.abs v)%Z).
    { destruct (Z_lt_le_dec (Z.abs v) (2 ^ 53)%Z) as [Hlt|Hge]; [| exact Hge].
      apply Z.log2_lt_pow2 in Hlt; lia. }
    lia. }
  destruct (Z.abs_eq_or_opp v) as [Heq|Heq]; rewrite Heq in Habs.
  - subst v. vm_compute. reflexivity.
  - assert (v = (- 2 ^ 53)%Z) as -> by lia. vm_compute. reflexivity.
Qed.

(** A multiple of 8 whose eighth fits the significand is a binary64
    value. *)
Lemma float64_mul8 (k : Z) :
  (- 2 ^ 53 < k < 2 ^ 53)%Z -> float64 (8 * k) = (8 * k)%Z.
Proof.
  intros Hk. unfold float64.
  destruct (Z.leb_spec (Z.log2 (Z.abs (8 * k)) + 1 - 53) 0) as [Hle|Hgt]; [reflexivity |].
  assert (Ha : Z.abs (8 * k) = (Z.abs k * 2 ^ 3)%Z) by lia.
  assert (Hpos : (0 < Z.abs k)%Z).
  { destruct (Z.eq_dec k 0%Z) as [H0|H0]; [subst k; vm_compute in Hgt; discriminate | lia]. }
  assert (Hlog : (Z.log2 (Z.abs k) < 53)%Z) by (apply Z.log2_lt_pow2; lia).
  rewrite Ha, Z.log2_mul_pow2 in * by lia.
  remember (3 + Z.log2 (Z.abs k) + 1 - 53)%Z as n eqn:Hn.
  assert (Hcases : n = 1%Z \/ n = 2%Z \/ n = 3%Z) by lia.
  rewrite Z.land_ones, Z.shiftr_div_pow2, Z.shiftl_mul_pow2 by lia.
  assert (Hmod : ((Z.abs k * 2 ^ 3) mod 2 ^ n = 0)%Z).
  { destruct Hcases as [-> | [-> | ->]].
    - replace (Z.abs k * 2 ^ 3)%Z with (Z.abs k * 4 * 2 ^ 1)%Z by lia. apply Z_mod_mult.
    - replace (Z.abs k * 2 ^ 3)%Z with (Z.abs k * 2 * 2 ^ 2)%Z by lia. apply Z_mod_mult.
    - apply Z_mod_mult. }
  rewrite Hmod.
  assert (Hhalf : (0 < Z.shiftl 1 (n - 1))%Z).
  { rewrite Z.shiftl_mul_pow2 by lia.
    destruct Hcases as [-> | [-> | ->]]; vm_compute; reflexivity. }
  destruct (Z.ltb_spec (Z.shiftl 1 (n - 1)) 0) as [|_]; [lia |].
  destruct (Z.eqb_spec 0 (Z.shiftl 1 (n - 1))) as [|_]; [lia |].
  cbn [orb andb].
  assert (Hback : ((Z.abs k * 2 ^ 3) / 2 ^ n * 2 ^ n = Z.abs k * 2 ^ 3)%Z).
  { pose proof (Z.div_mod (Z.abs k * 2 ^ 3) (2 ^ n)) as Hd.
    rewrite Hmod in Hd. rewrite Z.mul_comm. symmetry. rewrite Z.add_0_r in Hd.
    apply Hd. destruct Hcases as [-> | [-> | ->]]; discriminate. }
  rewrite Hback. lia.
Qed.

(** 125000 times a speed is a binary64 value up to a speed of
    576460752304. *)
Lemma float64_speed (s : Z) :
  (-576460752304 <= s <= 576460752304)%Z -> float64 (s * 125000) = (s * 125000)%Z.
Proof.
  intros Hs.
  destruct (Z.eq_dec s 576460752304%Z) as [->|Hhi]; [vm_compute; reflexivity |].
  destruct (Z.eq_dec s (-576460752304)%Z) as [->|Hlo]; [vm_compute; reflexivity |].
  replace (s * 125000)%Z with (8 * (s * 15625))%Z by lia.
  apply float64_mul8. lia.
Qed.

Lemma wrap64_small (z : Z) :
  (- 2 ^ 63 <= z < 2 ^ 63)%Z -> wrap64 z = z.
Proof. intros Hz. unfold wrap64. rewrite Z.mod_small; lia. Qed.

Lemma speedBytes_exact (s : Z) :
  (-9223372036854 <= s <= 9223372036854)%Z -> speedBytes s = (s * 125000)%Z.
Proof.
  intros Hs. unfold speedBytes.
  rewrite (wrap64_small (s * 1000)) by lia.
  rewrite wrap64_small by lia.
  replace (s * 1000 * 1000)%Z with (s * 125000 * 8)%Z by lia.
  apply Z.quot_mul. lia.
Qed.
End CollectorFacts.

(** X10.  [getNetClassInfo] reads the listed devices that the pattern does
    not ignore, and nothing else: every entry of its map is such a device,
    with what sysfs gave for it; it returns no error exactly when every
    such device could be read, and its map then has them all. *)
Theorem getNetClassInfo_reads_listed_devices
    (c : collector.netClassCollector) (devs : list string) :
  collector.NetClassDevices (collector.fs c) = collector.Ok devs ->
  (forall d i, fst (collector.getNetClassInfo c) !! d = Some i ->
      d ∈ devs /\ collector.ignoredDevicesPattern c d = false
      /\ collector.NetClassByIface (collector.fs c) d = collector.Ok i)
  /\ (snd (collector.getNetClassInfo c) = None <->
      forall d, d ∈ devs -> collector.ignoredDevicesPattern c d = false ->
                exists i, collector.NetClassByIface (collector.fs c) d = collector.Ok i)
  /\ (snd (collector.getNetClassInfo c) = None ->
      forall d, d ∈ devs -> collector.ignoredDevicesPattern c d = false ->
                exists i, fst (collector.getNetClassInfo c) !! d = Some i).
Proof. exact (getNetClassInfo_listed c devs). Qed.

Lemma getNetClassInfo_reads_listed_devices_witness :
  snd (collector.getNetClassInfo (collector_of sysfs_ok)) = None
  /\ exists i, fst (collector.getNetClassInfo (collector_of sysfs_ok)) !! "eth0"%string = Some i.
Proof.
  destruct (getNetClassInfo_reads_listed_devices (collector_of sysfs_ok)
              ["lo"; "eth0"; "wlan0"]%string eq_refl) as (_ & Hiff & Hall).
  assert (Hnone : snd (collector.getNetClassInfo (collector_of sysfs_ok)) = None)
    by (vm_compute; reflexivity).
  split; [exact Hnone |].
  apply (Hall Hnone "eth0"%string); [| reflexivity].
  apply elem_of_cons; right. apply elem_of_cons; now left.
Defined.





(** X13.  Every metric [Collect] sends is built as the library wants it:
    it has as many label values as its descriptor has labels, its first
    label is "device", and the value of that label is the name of an
    interface that [getNetClassInfo] returned. *)
Theorem Collect_metrics_are_well_labelled
    (ns : string) (vm vl : string -> bool)
    (c : collector.netClassCollector) (visit : list string)
    (m : collector.Metric) :
  m ∈ collector.sent (collector.Collect ns vm vl c visit) ->
  exists (d : string) (i : collector.NetClassIface),
    d ∈ visit
    /\ fst (collector.getNetClassInfo c) !! d = Some i
    /\ snd (collector.getNetClassInfo c) = None
    /\ collector.well_labelled i m.
Proof.
  unfold collector.Collect.
  destruct (collector.getNetClassInfo c) as [netClass [e|]]; cbn [fst snd].
  - intros Hin. inversion Hin.
  - pose proof (sendAll_elem
                  (flat_map (collector.collectIface ns vm vl c)
                     (collector.ranged netClass visit)) m) as Helem.
    destruct (collector.sendAll _) as [ms p]. cbn [fst collector.sent] in *.
    intros Hin. apply Helem in Hin.
    apply list_elem_of_In, in_flat_map in Hin.
    destruct Hin as (i & Hi & Hm).
    apply list_elem_of_In, ranged_lookup in Hi as (d & Hd & Hl).
    exists d, i. split; [exact Hd |]. split; [exact Hl |]. split; [reflexivity |].
    pose proof (collectIface_labelled ns vm vl c i) as Hall.
    rewrite Forall_forall in Hall. apply list_elem_of_In in Hm.
    exact (Hall _ Hm m eq_refl).
Qed.

Lemma Collect_metrics_are_well_labelled_witness :
  exists m i,
    m ∈ collector.sent (collector.Collect "node" legacyMetricName legacyLabelName
                          (collector_of sysfs_ok) ["eth0"]%string)
    /\ collector.fqName (collector.desc m) = "node_network_info"%string
    /\ collector.labelValues m
       = ["eth0"; "02:00:00:00:00:01"; "ff:ff:ff:ff:ff:ff"; "full"; "up"; ""]%string
    /\ collector.well_labelled i m.
Proof.
  assert (Hin : {| collector.desc :=
                     collector.infoDesc "node" legacyMetricName legacyLabelName
                       (collector_of sysfs_ok);
                   collector.valueType := collector.GaugeValue;
                   collector.value := 1;
                   collector.labelValues :=
                     ["eth0"; "02:00:00:00:00:01"; "ff:ff:ff:ff:ff:ff"; "full"; "up"; ""]%string |}
          ∈ collector.sent (collector.Collect "node" legacyMetricName legacyLabelName
                              (collector_of sysfs_ok) ["eth0"]%string)).
  { vm_compute. apply elem_of_cons; right. apply elem_of_cons; now left. }
  destruct (Collect_metrics_are_well_labelled _ _ _ _ _ _ Hin) as (d & i & _ & _ & _ & Hwl).
  eexists _, i. split; [exact Hin |]. split; [reflexivity |]. split; [reflexivity | exact Hwl].
Defined.

(** X14.  The speed is exported in bytes per second, as a float64.  For
    an interface whose speed is known to sysfs, of any sign (the option
    that would drop negative speeds is off) and small enough for the
    product by 1000000 to fit an int64, [Collect] calls
    [MustNewConstMetric] for the gauge [speed_bytes] with the float64
    nearest to 125000 times the speed, and sends that metric when no call
    for the interface panics.  The float64 is 125000 times the speed
    exactly up to a speed of 576460752304 (in absolute value), so a speed
    of -1, "unknown", is sent as -125000; for a speed of 576460752305 it
    is 8 less. *)
Theorem Collect_speed_in_bytes
    (ns : string) (vm vl : string -> bool)
    (c : collector.netClassCollector) (i : collector.NetClassIface) (s : Z) :
  collector.Speed i = Some s ->
  (-9223372036854 <= s <= 9223372036854)%Z ->
  let call := collector.MustNewConstMetric
                (collector.fieldDesc ns vm vl (collector.subsystem c) "speed_bytes")
                collector.GaugeValue (float64 (s * 125000)) [collector.Name i] in
  collector.speedBytes s = (s * 125000)%Z
  /\ call ∈ collector.collectIface ns vm vl c i
  /\ (snd (collector.sendAll (collector.collectIface ns vm vl c i)) = None ->
      exists m : collector.Metric,
        m ∈ fst (collector.sendAll (collector.collectIface ns vm vl c i))
        /\ collector.desc m
           = collector.fieldDesc ns vm vl (collector.subsystem c) "speed_bytes"
        /\ collector.valueType m = collector.GaugeValue
        /\ collector.labelValues m = [collector.Name i]
        /\ collector.value m = float64 (s * 125000))
  /\ ((-576460752304 <= s <= 576460752304)%Z -> float64 (s * 125000) = (s * 125000)%Z)
  /\ (s = 576460752305%Z -> float64 (s * 125000) = (s * 125000 - 8)%Z).
Proof.
  intros Hsp Hs call. pose proof (speedBytes_exact s Hs) as Hexact.
  assert (Hcall : call ∈ collector.collectIface ns vm vl c i).
  { unfold collector.collectIface. rewrite Hsp.
    unfold collector.netclassInvalidSpeed. cbn [negb]. rewrite orb_true_r.
    unfold collector.pushMetric at 1. rewrite Hexact.
    rewrite !elem_of_app.
    do 16 right. left. apply list_elem_of_singleton. reflexivity. }
  split; [exact Hexact |]. split; [exact Hcall |]. split; [| split].
  - intros Hquiet. apply sendAll_None in Hquiet.
    rewrite <- Hquiet in Hcall. apply list_elem_of_fmap in Hcall as (m & Hm & Hin).
    exists m. split; [exact Hin |].
    apply MustNewConstMetric_Built in Hm as [-> _]. repeat split.
  - exact (float64_speed s).
  - intros ->. vm_compute. reflexivity.
Qed.

Lemma Collect_speed_in_bytes_witness :
  exists m : collector.Metric,
    m ∈ fst (collector.sendAll
               (collector.collectIface "node" legacyMetricName legacyLabelName
                  (collector_of sysfs_ok)
                  (iface "wlan0" "down" (Some (-1)%Z) (Some 1500%Z))))
    /\ collector.fqName (collector.desc m) = "node_network_speed_bytes"%string
    /\ collector.value m = (-125000)%Z.
Proof.
  destruct (Collect_speed_in_bytes "node" legacyMetricName legacyLabelName
              (collector_of sysfs_ok)
              (iface "wlan0" "down" (Some (-1)%Z) (Some 1500%Z)) (-1) eq_refl
              ltac:(lia)) as (_ & _ & Hsent & Hexact & _).
  destruct (Hsent ltac:(vm_compute; reflexivity)) as (m & Hin & Hd & _ & _ & Hv).
  exists m. split; [exact Hin |]. split; [rewrite Hd; reflexivity |].
  rewrite Hv. apply Hexact. lia.
Defined.

(** X15.  What [Collect] sends for one interface, the descriptors being
    valid.  When the six texts of the interface are valid UTF-8, no call
    panics and from 2 to 19 metrics are sent, the first two being the
    gauges [up] and [info]: [up] is 1 when the operating state is "up" and
    0 for any other state, [info] is always 1 and carries the six texts as
    label values.  When the name of the interface is not valid UTF-8, the
    first call panics and nothing is sent.  When the name is valid and
    another of the six texts is not, [up] alone is sent and the call for
    [info] panics on the first text that is not valid. *)
Theorem Collect_up_and_info
    (ns : string) (vm vl : string -> bool)
    (c : collector.netClassCollector) (i : collector.NetClassIface) :
  collector.descs_valid ns vm vl c = true ->
  let run := collector.sendAll (collector.collectIface ns vm vl c i) in
  let up := {| collector.desc := collector.upDesc ns vm vl c;
               collector.valueType := collector.GaugeValue;
               collector.value := if String.eqb (collector.OperState i) "up"
                                  then 1%Z else 0%Z;
               collector.labelValues := [collector.Name i] |} in
  let info := {| collector.desc := collector.infoDesc ns vm vl c;
                 collector.valueType := collector.GaugeValue;
                 collector.value := 1%Z;
                 collector.labelValues :=
                   [collector.Name i; collector.Address i; collector.Broadcast i;
                    collector.Duplex i; collector.OperState i; collector.IfAlias i] |} in
  (forallb utf8.ValidString (collector.texts i) = true ->
   snd run = None
   /\ exists rest : list collector.Metric,
        fst run = up :: info :: rest /\ length rest <= 17)
  /\ (utf8.ValidString (collector.Name i) = false ->
      run = ([], Some (collector.InvalidLabelValue (collector.Name i))))
  /\ (utf8.ValidString (collector.Name i) = true ->
      forallb utf8.ValidString (collector.texts i) = false ->
      exists val : string,
        run = ([up], Some (collector.InvalidLabelValue val))
        /\ In val (collector.texts i)
        /\ utf8.ValidString val = false).
Proof.
  intros Hvalid run up info. subst run.
  destruct (descs_valid_inv ns vm vl c Hvalid) as (Hup & Hinfo & _).
  destruct (collectIface_fields ns vm vl c i)
    as (cup & cinfo & fields & Hcalls & Hcup & Hcinfo & Hlen & Hfields).
  rewrite Hcalls.
  assert (Hbuilt_up : utf8.ValidString (collector.Name i) = true ->
                      cup = collector.Built up).
  { intros Hname. rewrite Hcup.
    apply MustNewConstMetric_valid; [exact Hup | reflexivity |].
    cbn. now rewrite Hname. }
  split; [| split].
  - intros Htexts.
    assert (Hname : utf8.ValidString (collector.Name i) = true).
    { cbn [collector.texts forallb] in Htexts.
      now apply andb_true_iff in Htexts as [? _]. }
    assert (Hbuilt_info : cinfo = collector.Built info).
    { rewrite Hcinfo.
      apply MustNewConstMetric_valid; [exact Hinfo | reflexivity | exact Htexts]. }
    pose proof (sendAll_built fields (Hfields Hvalid Hname)) as Hquiet.
    pose proof (sendAll_None fields Hquiet) as Hmap.
    rewrite (Hbuilt_up Hname), Hbuilt_info. cbn [collector.sendAll].
    destruct (collector.sendAll fields) as [rest p]. cbn [fst snd] in *.
    split; [exact Hquiet |]. exists rest. split; [reflexivity |].
    rewrite <- Hmap, length_map in Hlen. exact Hlen.
  - intros Hname.
    destruct (MustNewConstMetric_invalid (collector.upDesc ns vm vl c) collector.GaugeValue
                (if String.eqb (collector.OperState i) "up" then 1%Z else 0%Z)
                [collector.Name i] Hup eq_refl) as (val & Hpanic & Hin & _).
    { cbn. now rewrite Hname. }
    destruct Hin as [<-|[]]. rewrite Hcup, Hpanic. reflexivity.
  - intros Hname Htexts.
    destruct (MustNewConstMetric_invalid (collector.infoDesc ns vm vl c) collector.GaugeValue
                1%Z (collector.texts i) Hinfo eq_refl Htexts) as (val & Hpanic & Hin & Hbad).
    exists val. rewrite (Hbuilt_up Hname), Hcinfo, Hpanic. cbn [collector.sendAll].
    split; [reflexivity |]. split; [exact Hin | exact Hbad].
Qed.

Lemma Collect_up_and_info_witness :
  collector.descs_valid "node" legacyMetricName legacyLabelName (collector_of sysfs_ok) = true
  /\ collector.sendAll
       (collector.collectIface "node" legacyMetricName legacyLabelName
          (collector_of sysfs_ok) odd_name)
     = ([], Some (collector.InvalidLabelValue (collector.Name odd_name)))
  /\ exists val : string,
       collector.sendAll
         (collector.collectIface "node" legacyMetricName legacyLabelName
            (collector_of sysfs_ok) odd_alias)
       = ([{| collector.desc :=
                collector.upDesc "node" legacyMetricName legacyLabelName
                  (collector_of sysfs_ok);
              collector.valueType := collector.GaugeValue;
              collector.value := 1%Z;
              collector.labelValues := ["eth1"%string] |}],
          Some (collector.InvalidLabelValue val))
       /\ utf8.ValidString val = false.
Proof.
  assert (Hvalid : collector.descs_valid "node" legacyMetricName legacyLabelName
                     (collector_of sysfs_ok) = true) by (vm_compute; reflexivity).
  split; [exact Hvalid |]. split.
  - apply (proj1 (proj2 (Collect_up_and_info "node" legacyMetricName legacyLabelName
                           (collector_of sysfs_ok) odd_name Hvalid))).
    vm_compute. reflexivity.
  - destruct (proj2 (proj2 (Collect_up_and_info "node" legacyMetricName legacyLabelName
                              (collector_of sysfs_ok) odd_alias Hvalid)))
      as (val & Hrun & _ & Hbad); [vm_compute; reflexivity | vm_compute; reflexivity |].
    exists val. split; [exact Hrun | exact Hbad].
Defined.

(** X16.  A collector made by [NewNetClassCollector] watches the
    subsystem "network" and ignores no device that has a name: with every
    listed device readable, its map holds every listed device with a
    non-empty name.  When sysfs cannot be opened, the error returned wraps
    the cause, so that [errors.Is] still finds it. *)
Theorem NewNetClassCollector_ignores_nothing
    (newFS : collector.result collector.FS) :
  (forall e, newFS = collector.Err e ->
      exists e', collector.NewNetClassCollector newFS = collector.Err e'
                 /\ forall target, collector.Is e target = true ->
                                   collector.Is e' target = true)
  /\ (forall f devs,
         newFS = collector.Ok f ->
         collector.NetClassDevices f = collector.Ok devs ->
         (forall d, d ∈ devs -> exists i, collector.NetClassByIface f d = collector.Ok i) ->
         exists c,
           collector.NewNetClassCollector newFS = collector.Ok c
           /\ collector.subsystem c = "network"%string
           /\ (forall d, collector.ignoredDevicesPattern c d = true <-> d = ""%string)
           /\ snd (collector.getNetClassInfo c) = None
           /\ forall d, d ∈ devs -> d <> ""%string ->
                        fst (collector.getNetClassInfo c) !! d
                        = match collector.NetClassByIface f d with
                          | collector.Ok i => Some i
                          | collector.Err _ => None
                          end).
Proof.
  split.
  - intros e ->. eexists. split; [reflexivity |].
    intros target Ht. cbn [collector.Is].
    destruct (collector.error_eq_dec _ target); [reflexivity | exact Ht].
  - intros f devs -> Hlist Hread.
    eexists. split; [reflexivity |]. split; [reflexivity |].
    set (c := {| collector.fs := f |}).
    assert (Hig : forall d, collector.ignoredDevicesPattern c d = true <-> d = ""%string).
    { intros d. cbn. unfold collector.MatchString_empty. apply String.eqb_eq. }
    split; [exact Hig |].
    destruct (getNetClassInfo_listed c devs Hlist) as (Hsound & Hiff & Hall).
    assert (Hnone : snd (collector.getNetClassInfo c) = None).
    { apply Hiff. intros d Hd _. now apply Hread. }
    split; [exact Hnone |].
    intros d Hd Hne.
    assert (Hni : collector.ignoredDevicesPattern c d = false).
    { destruct (collector.ignoredDevicesPattern c d) eqn:Hx; [| reflexivity].
      apply Hig in Hx. contradiction. }
    destruct (Hall Hnone d Hd Hni) as [i Hi]. rewrite Hi.
    destruct (Hsound d i Hi) as (_ & _ & Hok). cbn in Hok. now rewrite Hok.
Qed.

Lemma NewNetClassCollector_ignores_nothing_witness :
  exists c,
    collector.NewNetClassCollector (collector.Ok sysfs_ok) = collector.Ok c
    /\ snd (collector.getNetClassInfo c) = None
    /\ exists i, fst (collector.getNetClassInfo c) !! "lo"%string = Some i.
Proof.
  destruct (NewNetClassCollector_ignores_nothing (collector.Ok sysfs_ok)) as [_ Hok].
  destruct (Hok sysfs_ok ["lo"; "eth0"; "wlan0"]%string eq_refl eq_refl)
    as (c & Hnew & _ & _ & Hnone & Hall).
  - intros d Hd.
    repeat (apply elem_of_cons in Hd as [->|Hd]; [vm_compute; eauto |]).
    inversion Hd.
  - exists c. split; [exact Hnew |]. split; [exact Hnone |].
    eexists. apply (Hall "lo"%string); [apply elem_of_cons; now left | discriminate].
Defined.
